(** * Chewie: the 802.1X dispatcher and its supplicant-facing sockets

    A shallow embedding of [chewie/chewie.py] (class [Chewie]) and
    [chewie/nfv_sockets.py] (classes [EapSocket] and [MabSocket]).

    Conventions.
    - MAC addresses and port identifiers are represented by their string
      form ([str(mac)]); on such values Python's [str] is the identity.
    - Python dictionaries are [gmap]s; the two-level table
      [state_machines[port][mac]] is a map of maps.
    - Python exceptions are values of [exn]; code that may raise returns
      a [Result]. *)

From Stdlib Require Import ZArith List Bool.
From Stdlib.Strings Require Import Byte.
From stdpp Require Import gmap strings list fin_maps.

Open Scope Z_scope.

(** ** Exceptions *)

Inductive exn : Type :=
| StructError                     (* struct.error *)
| OSError (errno : Z)             (* OSError / socket.error *)
| MessageParseError               (* chewie.utils.MessageParseError *)
| CancelledError                  (* asyncio.CancelledError *)
| TypeError.                      (* use of a None socket *)

Inductive Result (A : Type) : Type :=
| Ok (a : A)
| Raise (e : exn).
Arguments Ok {A} a.
Arguments Raise {A} e.

(** Sequencing: the first exception ends the computation. *)
#[export] Instance Result_bind : MBind Result := fun A B k r =>
  match r with
  | Ok a => k a
  | Raise e => Raise e
  end.
#[export] Instance Result_ret : MRet Result := fun A a => Ok a.

(** [try: body except <filter>: handler]: the handler runs for the
    exceptions the clause catches, the others propagate. *)
Definition try_except {A : Type} (body : Result A) (catches : exn -> bool)
    (handler : exn -> Result A) : Result A :=
  match body with
  | Ok a => Ok a
  | Raise e => if catches e then handler e else Raise e
  end.

(** [except OSError] *)
Definition is_OSError (e : exn) : bool :=
  match e with OSError _ => true | _ => false end.

(** a bare [except:] *)
Definition any_exception (e : exn) : bool := true.

#[export] Instance byte_eq_decision : EqDecision byte := Byte.byte_eq_dec.

(** ** nfv_sockets.py *)

Module NfvSockets.

(** Python slicing [b[lo:hi]] for [0 <= lo <= hi]: never raises, it
    returns what is there. *)
Definition slice (lo hi : nat) (b : list byte) : list byte :=
  take (hi - lo)%nat (drop lo b).

(** [struct.unpack('>H', b)[0]]: exactly two bytes, else [struct.error]. *)
Definition unpack_H (b : list byte) : Result Z :=
  match b with
  | [hi; lo] => Ok (Z.of_N (Byte.to_N hi) * 256 + Z.of_N (Byte.to_N lo))
  | _ => Raise StructError
  end.

(** What one [loop.sock_recv(self.socket, 4096)] gives back. *)
Inductive SockEvent : Type :=
| SockData (pkt : list byte)
| SockFail (e : exn).

Module MabSocket.

Definition IP_ETHERTYPE : Z := 0x0800.
Definition DHCP_UDP_SRC : Z := 68.
Definition DHCP_UDP_DST : Z := 67.
Definition UDP_IPTYPE : list byte := [x11].

(** The body of the [while True] loop after [pkt] was read:
    [Ok true] is [return pkt], [Ok false] falls through to the next
    iteration. *)
Definition filter_frame (pkt : list byte) : Result bool :=
  if decide (slice 23 24 pkt = UDP_IPTYPE) then
    src_port ← unpack_H (slice 34 36 pkt);
    dst_port ← unpack_H (slice 36 38 pkt);
    Ok ((src_port =? DHCP_UDP_SRC) && (dst_port =? DHCP_UDP_DST))
  else Ok false.

(** Outcome of one call of [receive] on the frames the socket will
    deliver, in order. *)
Inductive Received : Type :=
| Returned (pkt : list byte) (rest : list SockEvent)
| Raised (e : exn) (rest : list SockEvent)
| Awaiting.                       (* suspended in [sock_recv] *)

Fixpoint receive (incoming : list SockEvent) : Received :=
  match incoming with
  | [] => Awaiting
  | SockFail e :: rest => Raised e rest
  | SockData pkt :: rest =>
      match filter_frame pkt with
      | Ok true => Returned pkt rest
      | Ok false => receive rest
      | Raise e => Raised e rest
      end
  end.

End MabSocket.

Module EapSocket.

(** The [socket] attribute: [None], or the open descriptor. *)
Record t : Type := mk { socket : option Z }.

(** The kernel's answers to [shutdown] and [close]: [None] for
    success, [Some errno] for an [OSError]. *)
Record CloseEnv : Type := mkEnv {
  shutdown_errno : option Z;
  close_errno : option Z
}.

Inductive Syscall : Type :=
| SysShutdown (fd : Z)
| SysClose (fd : Z)
| SysRecv (fd : Z).

Definition syscall (answer : option Z) : Result unit :=
  match answer with
  | None => Ok tt
  | Some errno => Raise (OSError errno)
  end.

(** [close]: the socket after the call together with the system calls
    made, or the exception that left the method. *)
Definition close (env : CloseEnv) (self : t) : Result (t * list Syscall) :=
  match socket self with
  | None => Ok (self, [])
  | Some fd =>
      try_except (syscall (shutdown_errno env)) is_OSError (fun _ => Ok tt) ;;
      try_except (syscall (close_errno env)) is_OSError (fun _ => Ok tt) ;;
      Ok (mk None, [SysShutdown fd; SysClose fd])
  end.

(** [receive]: one [sock_recv] on the descriptor. *)
Definition receive (self : t) (answer : SockEvent) : Result (list byte) :=
  match socket self with
  | None => Raise TypeError
  | Some fd =>
      match answer with
      | SockData pkt => Ok pkt
      | SockFail e => Raise e
      end
  end.

End EapSocket.

End NfvSockets.

(** ** The timer scheduler *)

Module TimerScheduler.

(** What a job runs when it fires: one of the two bound methods of
    the dispatcher that [chewie.py] hands to [call_later], or a method
    of a state machine. *)
Inductive Callback : Type :=
| send_preemptive_identity_request_if_no_active_on_port_cb (port_id : string)
| reauth_port_cb (src_mac port_id : string)
| state_machine_cb.

Record Job : Type := mkJob {
  job_delay : Z;                  (* seconds after the call of [call_later] *)
  job_callback : Callback;
  job_cancelled : bool
}.

(** Modelled from the spec: chewie/timer_scheduler.py is not part of
    the sources at hand.  [call_later(delay_s, fn, *args)] registers a
    job and returns its handle; here the scheduler is the list of all
    jobs ever registered and a handle is a position in it. *)
Definition call_later (delay : Z) (cb : Callback) (jobs : list Job)
    : nat * list Job :=
  (length jobs, jobs ++ [mkJob delay cb false]).

(** Modelled from the spec: [JobHandle.cancel()] is idempotent and a
    cancelled job never fires. *)
Definition cancel (handle : nat) (jobs : list Job) : list Job :=
  alter (fun j => mkJob (job_delay j) (job_callback j) true) handle jobs.

End TimerScheduler.

(** ** chewie.py: messages, events and the state-machine interface *)

(** [IdentityMessage(src_mac, message_id, code, identity)] *)
Record IdentityMessage : Type := mkIdentityMessage {
  im_src_mac : string;
  im_message_id : Z;
  im_code : Z;
  im_identity : string
}.

(** What travels on [eap_output_messages]: the identity requests the
    dispatcher builds, and the messages the state machines build. *)
Inductive OutMessage : Type :=
| OutIdentity (m : IdentityMessage)
| OutFromMachine (packed : string).

(** [EapQueueMessage(message, src_mac, port_mac)] *)
Record EapQueueMessage : Type := mkEapQueueMessage {
  qm_message : OutMessage;
  qm_src_mac : string;
  qm_port_mac : string
}.

(** A parsed supplicant message: the attributes the dispatcher reads
    are [src_mac] and, when the message has one, [message_id]. *)
Record EapMessage : Type := mkEapMessage {
  eap_src_mac : string;
  eap_message_id : option Z;
  eap_rest : string
}.

Record EthernetPacket : Type := mkEthernetPacket {
  eth_dst_mac : string;
  eth_src_mac : string;
  eth_data : list byte
}.

Inductive Message : Type :=
| MsgEap (eap : EapMessage)
| MsgEthernet (pkt : EthernetPacket).

(** Modelled from the spec: chewie/event.py is not part of the sources
    at hand.  The first three events are built by [chewie.py], the
    fourth by [radius_lifecycle.build_event_radius_message_received];
    [EventTimerExpired] is the event a machine receives from the
    timers it registers with the scheduler it was constructed with. *)
Inductive Event : Type :=
| EventMessageReceived (message : Message) (port_id : string)
| EventPortStatusChange (port_status : bool)
| EventPreemptiveEAPResponseMessageReceived
    (message : Message) (port_id : string) (preemptive_eap_id : Z)
| EventRadiusMessageReceived (radius : string)
| EventTimerExpired.

(** What a state machine can do to the dispatcher while it handles an
    event: it was constructed with the two output queues, the timer
    scheduler and the [auth_success], [auth_failure] and [auth_logoff]
    methods. *)
Inductive Action : Type :=
| PutEap (m : EapQueueMessage)
| PutRadius (packed : string)
| CallLater (delay : Z)
| CancelJob (handle : nat)
| AuthSuccess (src_mac port_id : string) (period : Z)
| AuthFailure (src_mac port_id : string)
| AuthLogoff (src_mac port_id : string).

(** The state machines ([chewie.state_machines]) are used through this
    interface only.  [current_id] is [None] for a machine without that
    attribute ([hasattr] false).  The constructors receive the client
    MAC and, inside the log prefix, the port. *)
Class StateMachine (SM : Type) : Type := {
  FullEAPStateMachine : string -> string -> SM;
  MacAuthenticationBypassStateMachine : string -> string -> SM;
  is_in_progress : SM -> bool;
  is_success : SM -> bool;
  current_id : SM -> option Z;
  event : Event -> SM -> SM * list Action
}.

(** The two parsers of [chewie.message_parser] and
    [chewie.ethernet_packet] the receive loops call. *)
Class Parsers : Type := {
  ethernet_parse : list byte -> Result (EapMessage * string);
  EthernetPacket_parse : list byte -> Result EthernetPacket
}.

(** Modelled from the spec: chewie/eap.py is not part of the sources at
    hand; the EAP code of a Request is 1. *)
Definition Eap_REQUEST : Z := 1.

Inductive HandlerCall : Type :=
| auth_handler_called (src_mac port_id : string)
| failure_handler_called (src_mac port_id : string)
| logoff_handler_called (src_mac port_id : string).

(** Which of the three optional handlers were given to [__init__]. *)
Record Handlers : Type := mkHandlers {
  auth_handler : bool;
  failure_handler : bool;
  logoff_handler : bool
}.

Module Chewie.

Definition RADIUS_UDP_PORT : Z := 1812.
Definition PAE_GROUP_ADDRESS : string := "01:80:c2:00:00:03".
Definition DEFAULT_PORT_UP_IDENTITY_REQUEST_WAIT_PERIOD : Z := 20.
Definition DEFAULT_PREEMPTIVE_IDENTITY_REQUEST_INTERVAL : Z := 60.

(** The attributes of a [Chewie] object.  [random_ids] and [drawn] are
    the sequence [get_random_id] returns and how far it was consumed;
    [handler_calls] and [event_log] record, in order, the calls of the
    application's handlers and of [state_machine.event]: they are
    written and never read. *)
Record t (SM : Type) : Type := mk {
  running : bool;
  handlers : Handlers;
  state_machines : gmap string (gmap string SM);
  port_to_eapol_id : gmap string Z;
  port_status : gmap string bool;
  port_to_identity_job : gmap string nat;
  eap_output_messages : list EapQueueMessage;
  radius_output_messages : list string;
  timer_scheduler : list TimerScheduler.Job;
  eap_socket : option NfvSockets.EapSocket.t;
  random_ids : nat -> Z;
  drawn : nat;
  handler_calls : list HandlerCall;
  event_log : list (string * string * Event)
}.
Arguments mk {SM}.
Arguments running {SM}.
Arguments handlers {SM}.
Arguments state_machines {SM}.
Arguments port_to_eapol_id {SM}.
Arguments port_status {SM}.
Arguments port_to_identity_job {SM}.
Arguments eap_output_messages {SM}.
Arguments radius_output_messages {SM}.
Arguments timer_scheduler {SM}.
Arguments eap_socket {SM}.
Arguments random_ids {SM}.
Arguments drawn {SM}.
Arguments handler_calls {SM}.
Arguments event_log {SM}.

Section Attributes.
Context {SM : Type}.
Implicit Type s : t SM.

Definition set_running (v : bool) s : t SM :=
  mk v (handlers s) (state_machines s) (port_to_eapol_id s) (port_status s)
     (port_to_identity_job s) (eap_output_messages s)
     (radius_output_messages s) (timer_scheduler s) (eap_socket s)
     (random_ids s) (drawn s) (handler_calls s) (event_log s).

Definition set_state_machines (v : gmap string (gmap string SM)) s : t SM :=
  mk (running s) (handlers s) v (port_to_eapol_id s) (port_status s)
     (port_to_identity_job s) (eap_output_messages s)
     (radius_output_messages s) (timer_scheduler s) (eap_socket s)
     (random_ids s) (drawn s) (handler_calls s) (event_log s).

Definition set_port_to_eapol_id (v : gmap string Z) s : t SM :=
  mk (running s) (handlers s) (state_machines s) v (port_status s)
     (port_to_identity_job s) (eap_output_messages s)
     (radius_output_messages s) (timer_scheduler s) (eap_socket s)
     (random_ids s) (drawn s) (handler_calls s) (event_log s).

Definition set_port_status_table (v : gmap string bool) s : t SM :=
  mk (running s) (handlers s) (state_machines s) (port_to_eapol_id s) v
     (port_to_identity_job s) (eap_output_messages s)
     (radius_output_messages s) (timer_scheduler s) (eap_socket s)
     (random_ids s) (drawn s) (handler_calls s) (event_log s).

Definition set_port_to_identity_job (v : gmap string nat) s : t SM :=
  mk (running s) (handlers s) (state_machines s) (port_to_eapol_id s)
     (port_status s) v (eap_output_messages s)
     (radius_output_messages s) (timer_scheduler s) (eap_socket s)
     (random_ids s) (drawn s) (handler_calls s) (event_log s).

Definition set_eap_output_messages (v : list EapQueueMessage) s : t SM :=
  mk (running s) (handlers s) (state_machines s) (port_to_eapol_id s)
     (port_status s) (port_to_identity_job s) v
     (radius_output_messages s) (timer_scheduler s) (eap_socket s)
     (random_ids s) (drawn s) (handler_calls s) (event_log s).

Definition set_radius_output_messages (v : list string) s : t SM :=
  mk (running s) (handlers s) (state_machines s) (port_to_eapol_id s)
     (port_status s) (port_to_identity_job s) (eap_output_messages s)
     v (timer_scheduler s) (eap_socket s)
     (random_ids s) (drawn s) (handler_calls s) (event_log s).

Definition set_timer_scheduler (v : list TimerScheduler.Job) s : t SM :=
  mk (running s) (handlers s) (state_machines s) (port_to_eapol_id s)
     (port_status s) (port_to_identity_job s) (eap_output_messages s)
     (radius_output_messages s) v (eap_socket s)
     (random_ids s) (drawn s) (handler_calls s) (event_log s).

Definition set_eap_socket (v : option NfvSockets.EapSocket.t) s : t SM :=
  mk (running s) (handlers s) (state_machines s) (port_to_eapol_id s)
     (port_status s) (port_to_identity_job s) (eap_output_messages s)
     (radius_output_messages s) (timer_scheduler s) v
     (random_ids s) (drawn s) (handler_calls s) (event_log s).

Definition set_drawn (v : nat) s : t SM :=
  mk (running s) (handlers s) (state_machines s) (port_to_eapol_id s)
     (port_status s) (port_to_identity_job s) (eap_output_messages s)
     (radius_output_messages s) (timer_scheduler s) (eap_socket s)
     (random_ids s) v (handler_calls s) (event_log s).

Definition set_handler_calls (v : list HandlerCall) s : t SM :=
  mk (running s) (handlers s) (state_machines s) (port_to_eapol_id s)
     (port_status s) (port_to_identity_job s) (eap_output_messages s)
     (radius_output_messages s) (timer_scheduler s) (eap_socket s)
     (random_ids s) (drawn s) v (event_log s).

Definition set_event_log (v : list (string * string * Event)) s : t SM :=
  mk (running s) (handlers s) (state_machines s) (port_to_eapol_id s)
     (port_status s) (port_to_identity_job s) (eap_output_messages s)
     (radius_output_messages s) (timer_scheduler s) (eap_socket s)
     (random_ids s) (drawn s) (handler_calls s) v.

End Attributes.

Section Dispatcher.
Context {SM : Type} `{!StateMachine SM}.
Implicit Type s : t SM.

(** [get_random_id()] *)
Definition get_random_id s : Z * t SM :=
  (random_ids s (drawn s), set_drawn (S (drawn s)) s).

(** The machine stored for (port, client MAC), if any:
    [self.state_machines.get(port_id, {}).get(src_mac, None)]. *)
Definition lookup_machine (port_id src_mac : string) s : option SM :=
  default ∅ (state_machines s !! port_id) !! src_mac.

(** [self.state_machines[port_id][src_mac] = sm] on an existing port
    table (a missing one is created empty first by every caller). *)
Definition store_machine (port_id src_mac : string) (sm : SM) s : t SM :=
  set_state_machines
    (<[port_id := <[src_mac := sm]> (default ∅ (state_machines s !! port_id))]>
       (state_machines s)) s.

Definition auth_success (src_mac port_id : string) (period : Z) s : t SM :=
  let s1 :=
    if auth_handler (handlers s)
    then set_handler_calls
           (handler_calls s ++ [auth_handler_called src_mac port_id]) s
    else s in
  let '(job, jobs) :=
    TimerScheduler.call_later period
      (TimerScheduler.reauth_port_cb src_mac port_id) (timer_scheduler s1) in
  set_port_to_identity_job (<[port_id := job]> (port_to_identity_job s1))
    (set_timer_scheduler jobs s1).

Definition auth_failure (src_mac port_id : string) s : t SM :=
  if failure_handler (handlers s)
  then set_handler_calls
         (handler_calls s ++ [failure_handler_called src_mac port_id]) s
  else s.

Definition auth_logoff (src_mac port_id : string) s : t SM :=
  if logoff_handler (handlers s)
  then set_handler_calls
         (handler_calls s ++ [logoff_handler_called src_mac port_id]) s
  else s.

Definition perform (a : Action) s : t SM :=
  match a with
  | PutEap m => set_eap_output_messages (eap_output_messages s ++ [m]) s
  | PutRadius r =>
      set_radius_output_messages (radius_output_messages s ++ [r]) s
  | CallLater delay =>
      set_timer_scheduler
        (TimerScheduler.call_later delay TimerScheduler.state_machine_cb
           (timer_scheduler s)).2 s
  | CancelJob handle =>
      set_timer_scheduler
        (TimerScheduler.cancel handle (timer_scheduler s)) s
  | AuthSuccess src_mac port_id period => auth_success src_mac port_id period s
  | AuthFailure src_mac port_id => auth_failure src_mac port_id s
  | AuthLogoff src_mac port_id => auth_logoff src_mac port_id s
  end.

Definition perform_all (acts : list Action) s : t SM :=
  foldl (fun acc a => perform a acc) s acts.

(** [state_machine.event(ev)] on the machine stored for
    (port, client MAC): the object in the table is the one mutated. *)
Definition deliver (port_id src_mac : string) (ev : Event) s : t SM :=
  match lookup_machine port_id src_mac s with
  | None => s
  | Some sm =>
      let '(sm', acts) := event ev sm in
      perform_all acts
        (store_machine port_id src_mac sm'
           (set_event_log (event_log s ++ [(port_id, src_mac, ev)]) s))
  end.

Definition set_port_status (port_id : string) (status : bool) s : t SM :=
  let s1 := set_port_status_table (<[port_id := status]> (port_status s)) s in
  let s2 :=
    match state_machines s1 !! port_id with
    | None => set_state_machines (<[port_id := ∅]> (state_machines s1)) s1
    | Some _ => s1
    end in
  foldl (fun acc mac => deliver port_id mac (EventPortStatusChange status) acc)
    s2 (map_to_list (default ∅ (state_machines s2 !! port_id))).*1.

Definition port_down (port_id : string) s : t SM :=
  let s1 := set_port_status port_id false s in
  let job := port_to_identity_job s1 !! port_id in
  let s2 :=
    match state_machines s1 !! port_id with
    | Some _ => set_state_machines (delete port_id (state_machines s1)) s1
    | None => s1
    end in
  let s3 :=
    match job with
    | Some j =>
        set_timer_scheduler (TimerScheduler.cancel j (timer_scheduler s2)) s2
    | None => s2
    end in
  set_port_to_eapol_id (delete port_id (port_to_eapol_id s3)) s3.

Definition port_up (port_id : string) s : t SM :=
  let s1 := set_port_status port_id true s in
  let '(job, jobs) :=
    TimerScheduler.call_later DEFAULT_PORT_UP_IDENTITY_REQUEST_WAIT_PERIOD
      (TimerScheduler.send_preemptive_identity_request_if_no_active_on_port_cb
         port_id)
      (timer_scheduler s1) in
  set_port_to_identity_job (<[port_id := job]> (port_to_identity_job s1))
    (set_timer_scheduler jobs s1).

(** [while _id == state_machine.current_id: _id = get_random_id()].
    The loop has no bound in the source; [fuel] bounds the number of
    further draws and [None] stands for a loop still spinning. *)
Fixpoint redraw (fuel : nat) (cur _id : Z) s : option (Z * t SM) :=
  if _id =? cur then
    match fuel with
    | O => None
    | S fuel' => let '(_id', s') := get_random_id s in redraw fuel' cur _id' s'
    end
  else Some (_id, s).

Definition send_preemptive_identity_request (fuel : nat) (port_id : string)
    (state_machine : option SM) s : option (t SM) :=
  let '(_id0, s0) := get_random_id s in
  '(_id, s1) ← match state_machine ≫= current_id with
               | Some cur => redraw fuel cur _id0 s0
               | None => Some (_id0, s0)
               end;
  let data := mkIdentityMessage PAE_GROUP_ADDRESS _id Eap_REQUEST "" in
  let s2 := set_port_to_eapol_id (<[port_id := _id]> (port_to_eapol_id s1)) s1 in
  Some (set_eap_output_messages
          (eap_output_messages s2
             ++ [mkEapQueueMessage (OutIdentity data) PAE_GROUP_ADDRESS port_id])
          s2).

(** The [for ... break ... else] scan of the port's machines. *)
Definition any_active (machines : gmap string SM) : bool :=
  existsb (fun sm => is_in_progress sm || is_success sm)
    (map_to_list machines).*2.

Definition send_preemptive_identity_request_if_no_active_on_port
    (fuel : nat) (port_id : string) s : option (t SM) :=
  let '(job, jobs) :=
    TimerScheduler.call_later DEFAULT_PREEMPTIVE_IDENTITY_REQUEST_INTERVAL
      (TimerScheduler.send_preemptive_identity_request_if_no_active_on_port_cb
         port_id)
      (timer_scheduler s) in
  let s1 :=
    set_port_to_identity_job (<[port_id := job]> (port_to_identity_job s))
      (set_timer_scheduler jobs s) in
  if negb (default false (port_status s1 !! port_id)) then Some s1
  else
    let machines := default ∅ (state_machines s1 !! port_id) in
    if any_active machines then Some s1
    else send_preemptive_identity_request fuel port_id None s1.

Definition reauth_port (fuel : nat) (src_mac port_id : string) s
    : option (t SM) :=
  match lookup_machine port_id src_mac s with
  | Some sm =>
      if is_success sm
      then send_preemptive_identity_request fuel port_id (Some sm) s
      else Some s
  | None => Some s
  end.

Definition get_state_machine (src_mac port_id : string) (message_id : Z) s
    : SM * t SM :=
  let s1 :=
    match state_machines s !! port_id with
    | None => set_state_machines (<[port_id := ∅]> (state_machines s)) s
    | Some _ => s
    end in
  match lookup_machine port_id src_mac s1 with
  | Some sm => (sm, s1)
  | None =>
      if message_id =? -2 then
        let sm := MacAuthenticationBypassStateMachine src_mac port_id in
        (sm, store_machine port_id src_mac sm s1)
      else
        let sm := FullEAPStateMachine src_mac port_id in
        (sm, store_machine port_id src_mac sm s1)
  end.

(** [send_eth_to_state_machine] after [EthernetPacket.parse]. *)
Definition send_eth_to_state_machine_parsed (ethernet_packet : EthernetPacket) s
    : t SM :=
  let port_id := eth_dst_mac ethernet_packet in
  let src_mac := eth_src_mac ethernet_packet in
  let message_id := -2 in
  let '(_, s1) := get_state_machine src_mac port_id message_id s in
  deliver port_id src_mac
    (EventMessageReceived (MsgEthernet ethernet_packet) port_id) s1.

Definition send_eth_to_state_machine `{!Parsers} (packed_message : list byte) s
    : Result (t SM) :=
  ethernet_packet ← EthernetPacket_parse packed_message;
  Ok (send_eth_to_state_machine_parsed ethernet_packet s).

Definition send_eap_to_state_machine (eap : EapMessage) (dst_mac : string) s
    : t SM :=
  if negb (running s) then s
  else
    let message_id := default (-1) (eap_message_id eap) in
    let '(_, s1) := get_state_machine (eap_src_mac eap) dst_mac message_id s in
    let preemptive_eap_message_id :=
      default (-2) (port_to_eapol_id s1 !! dst_mac) in
    let ev :=
      if negb (message_id =? -1) && (message_id =? preemptive_eap_message_id)
      then EventPreemptiveEAPResponseMessageReceived (MsgEap eap) dst_mac
             preemptive_eap_message_id
      else EventMessageReceived (MsgEap eap) dst_mac in
    deliver dst_mac (eap_src_mac eap) ev s1.

(** [send_radius_to_state_machine] once [radius_lifecycle] has resolved
    the packet id to its (client MAC, port) and built the event. *)
Definition send_radius_to_state_machine (src_mac port_id : string)
    (radius : string) s : t SM :=
  let '(_, s1) := get_state_machine src_mac port_id (-1) s in
  deliver port_id src_mac (EventRadiusMessageReceived radius) s1.

End Dispatcher.

(** *** What reaches the dispatcher *)

(** The entry points other code calls: the switch ([port_up],
    [port_down]), the timer scheduler (the two callbacks), the three
    receive loops, and [stop].  The machines' own timers reach the
    dispatcher too: a timer of a machine in the table makes that
    machine handle [EventTimerExpired]; a machine dropped from the
    table by [port_down] is still held by its timers, and what it does
    when one fires reaches the dispatcher as a list of actions. *)
Inductive Input : Type :=
| call_port_up (port_id : string)
| call_port_down (port_id : string)
| fire_preemptive (port_id : string)
| fire_reauth (src_mac port_id : string)
| eap_received (eap : EapMessage) (dst_mac : string)
| eth_received (pkt : EthernetPacket)
| radius_received (src_mac port_id : string) (radius : string)
| machine_timer_fired (port_id src_mac : string)
| dropped_machine_acted (acts : list Action)
| call_stop.

Section Run.
Context {SM : Type} `{!StateMachine SM}.
Implicit Type s : t SM.

Definition step (fuel : nat) (i : Input) s : option (t SM) :=
  match i with
  | call_port_up port_id => Some (port_up port_id s)
  | call_port_down port_id => Some (port_down port_id s)
  | fire_preemptive port_id =>
      send_preemptive_identity_request_if_no_active_on_port fuel port_id s
  | fire_reauth src_mac port_id => reauth_port fuel src_mac port_id s
  | eap_received eap dst_mac => Some (send_eap_to_state_machine eap dst_mac s)
  | eth_received pkt => Some (send_eth_to_state_machine_parsed pkt s)
  | radius_received src_mac port_id radius =>
      Some (send_radius_to_state_machine src_mac port_id radius s)
  | machine_timer_fired port_id src_mac =>
      Some (deliver port_id src_mac EventTimerExpired s)
  | dropped_machine_acted acts => Some (perform_all acts s)
  | call_stop => Some (set_running false s)
  end.

Fixpoint run (fuel : nat) (inputs : list Input) s : option (t SM) :=
  match inputs with
  | [] => Some s
  | i :: inputs' => s' ← step fuel i s; run fuel inputs' s'
  end.

End Run.

(** *** The receive loops *)

(** How a loop stands after the environment's answers were used up. *)
Inductive LoopEnd : Type :=
| Returns                         (* the coroutine returned *)
| Escapes (e : exn)               (* an exception left the coroutine *)
| Suspended                       (* waiting in [sock_recv] *)
| Pending.                        (* at the loop head, still running *)

Inductive LoopAct : Type :=
| Slept (seconds : Z)
| Handled (packed_message : list byte)
| LoggedError.

(** What the rest of the program does to one iteration of
    [receive_mab_messages]: the value of [self.running] when the loop
    tests it, an exception delivered at either [sleep] (a cancelled
    task), and [self.running] after the back-off. *)
Record MabTick : Type := mkMabTick {
  mab_running : bool;
  mab_sleep0 : option exn;
  mab_sleep2 : option exn;
  mab_running_after : bool
}.

(** One iteration of [receive_eap_messages]: [self.running] at the
    loop test and after the [await] of the receive. *)
Record EapTick : Type := mkEapTick {
  eap_running : bool;
  eap_running_after : bool
}.

Section Loops.
Context {SM : Type} `{!StateMachine SM} `{!Parsers}.
Implicit Type s : t SM.

Import NfvSockets.

Definition and_then (acts : list LoopAct)
    (r : list LoopAct * LoopEnd * t SM) : list LoopAct * LoopEnd * t SM :=
  let '(acts', e, s) := r in (acts ++ acts', e, s).

(** The [try] block of [receive_mab_messages]; [None] while the
    receive is still waiting. *)
Definition mab_try (incoming : list SockEvent) s
    : option (Result (list byte * t SM) * list SockEvent) :=
  match MabSocket.receive incoming with
  | MabSocket.Awaiting => None
  | MabSocket.Raised e rest => Some (Raise e, rest)
  | MabSocket.Returned packed_message rest =>
      Some (s' ← send_eth_to_state_machine packed_message s;
            Ok (packed_message, s'), rest)
  end.

Fixpoint receive_mab_messages (ticks : list MabTick)
    (incoming : list SockEvent) s : list LoopAct * LoopEnd * t SM :=
  match ticks with
  | [] => ([], Pending, s)
  | tk :: ticks' =>
      let s := set_running (mab_running tk) s in
      if negb (running s) then ([], Returns, s)
      else
        match mab_sleep0 tk with
        | Some e => ([], Escapes e, s)
        | None =>
            and_then [Slept 0]
              match mab_try incoming s with
              | None => ([], Suspended, s)
              | Some (Ok (packed_message, s'), rest) =>
                  and_then [Handled packed_message]
                    (receive_mab_messages ticks' rest s')
              | Some (Raise e, rest) =>
                  if any_exception e then
                    match mab_sleep2 tk with
                    | Some e' => ([], Escapes e', s)
                    | None =>
                        let s := set_running (mab_running_after tk) s in
                        and_then
                          (Slept 2 :: if running s then [LoggedError] else [])
                          (receive_mab_messages ticks' rest s)
                    end
                  else ([], Escapes e, s)
              end
        end
  end.

(** [except OSError as e: if e.errno == 100: break; raise] *)
Definition errno_100 (e : exn) : bool :=
  match e with OSError n => n =? 100 | _ => false end.

Definition is_MessageParseError (e : exn) : bool :=
  match e with MessageParseError => true | _ => false end.

Definition is_CancelledError (e : exn) : bool :=
  match e with CancelledError => true | _ => false end.

(** The [while self.running] loop inside the outer [try] of
    [receive_eap_messages], with the [sock_recv] calls it made. *)
Fixpoint eap_while (ticks : list EapTick) (incoming : list SockEvent) s
    : list EapSocket.Syscall * LoopEnd * t SM :=
  match ticks with
  | [] => ([], Pending, s)
  | tk :: ticks' =>
      let s := set_running (eap_running tk) s in
      if negb (running s) then ([], Returns, s)
      else
        match eap_socket s with
        | None => ([], Returns, s)                       (* break *)
        | Some sock =>
            match EapSocket.socket sock with
            | None => ([], Returns, s)                   (* break *)
            | Some fd =>
                match incoming with
                | [] => ([EapSocket.SysRecv fd], Suspended, s)
                | answer :: rest =>
                    let s := set_running (eap_running_after tk) s in
                    let '(calls, e, s') :=
                      match EapSocket.receive sock answer with
                      | Raise e => ([], Escapes e, s)
                      | Ok packed_message =>
                          match ethernet_parse packed_message with
                          | Raise e =>
                              if is_MessageParseError e
                              then eap_while ticks' rest s (* continue *)
                              else if is_OSError e
                              then if errno_100 e then ([], Returns, s)
                                   else ([], Escapes e, s)
                              else ([], Escapes e, s)
                          | Ok (eap, dst_mac) =>
                              eap_while ticks' rest
                                (send_eap_to_state_machine eap dst_mac s)
                          end
                      end in
                    (EapSocket.SysRecv fd :: calls, e, s')
                end
            end
        end
  end.

(** The [finally] clause: [self.eap_socket.close()] when there is a
    socket object. *)
Definition eap_finally (env : EapSocket.CloseEnv) s
    : Result (list EapSocket.Syscall * t SM) :=
  match eap_socket s with
  | None => Ok ([], s)
  | Some sock =>
      '(sock', calls) ← EapSocket.close env sock;
      Ok (calls, set_eap_socket (Some sock') s)
  end.

Definition receive_eap_messages (env : EapSocket.CloseEnv)
    (ticks : list EapTick) (incoming : list SockEvent) s
    : list EapSocket.Syscall * LoopEnd * t SM :=
  let '(calls, e, s') := eap_while ticks incoming s in
  let finish (e : LoopEnd) :=
    match eap_finally env s' with
    | Ok (calls', s'') => (calls ++ calls', e, s'')
    | Raise e' => (calls, Escapes e', s')
    end in
  match e with
  | Returns => finish Returns
  | Escapes x =>
      if is_OSError x || is_CancelledError x then finish Returns
      else finish (Escapes x)
  | Suspended => (calls, Suspended, s')
  | Pending => (calls, Pending, s')
  end.

End Loops.

End Chewie.

(** ** Concrete inputs

    A stand-in for the state machines, used to evaluate the dispatcher
    on concrete tables: a session shows the three observations the
    dispatcher makes and records the events it was given; it performs
    no action of its own. *)

Module Scenario.

Record Session : Type := mkSession {
  sess_mab : bool;
  sess_client : string;
  sess_in_progress : bool;
  sess_success : bool;
  sess_current_id : option Z;
  sess_received : list Event
}.

#[export] Instance Session_machine : StateMachine Session := {|
  FullEAPStateMachine src_mac _ := mkSession false src_mac false false (Some 0) [];
  MacAuthenticationBypassStateMachine src_mac _ :=
    mkSession true src_mac false false None [];
  is_in_progress := sess_in_progress;
  is_success := sess_success;
  current_id := sess_current_id;
  event ev sm :=
    (mkSession (sess_mab sm) (sess_client sm) (sess_in_progress sm)
       (sess_success sm) (sess_current_id sm) (sess_received sm ++ [ev]), [])
|}.

(** Frames shorter than an Ethernet header do not parse; the others
    are taken to come from one client on one port. *)
#[export] Instance parsers : Parsers := {|
  ethernet_parse _ := Raise MessageParseError;
  EthernetPacket_parse b :=
    if decide (length b < 14)%nat then Raise MessageParseError
    else Ok (mkEthernetPacket "00:00:00:00:00:10" "aa:bb:cc:dd:ee:02" b)
|}.

Definition port1 : string := "00:00:00:00:00:10".
Definition port2 : string := "00:00:00:00:00:20".
Definition client1 : string := "aa:bb:cc:dd:ee:01".
Definition client2 : string := "aa:bb:cc:dd:ee:02".

(** A dispatcher as [__init__] leaves it, running, whose random
    source returns 7 at every draw. *)
Definition fresh : Chewie.t Session :=
  Chewie.mk true (mkHandlers true true true) ∅ ∅ ∅ ∅ [] [] [] None
    (fun _ => 7) 0 [] [].

(** A frame of [n] zero bytes with the given bytes written at the
    given offsets. *)
Definition frame (n : nat) (writes : list (nat * byte)) : list byte :=
  foldl (fun b w => <[w.1 := w.2]> b) (replicate n x00) writes.

(** Ethernet (14 bytes) and IPv4 (20 bytes) headers with protocol
    UDP and nothing behind them. *)
Definition truncated_udp_frame : list byte := frame 34 [(23%nat, x11)].

(** A DHCP request from a client: UDP, source port 68, destination
    port 67. *)
Definition dhcp_frame : list byte :=
  frame 60 [(23%nat, x11); (35%nat, x44); (37%nat, x43)].

(** Two supplicants behind port 1: the first is authenticated, its
    last request had id 5; the second is in the middle of its
    authentication, the request it is answering has id 7. *)
Definition authenticated : Session :=
  mkSession false client1 false true (Some 5) [].
Definition authenticating : Session :=
  mkSession false client2 true false (Some 7) [].

Definition two_sessions : Chewie.t Session :=
  Chewie.mk true (mkHandlers true true true)
    {[ port1 := {[ client1 := authenticated; client2 := authenticating ]} ]}
    ∅ {[ port1 := true ]} ∅ [] [] [] None (fun _ => 7) 0 [] [].

(** The dispatcher after [stop()]. *)
Definition stopped : Chewie.t Session := Chewie.set_running false fresh.

(** Port 1 came up and its preemptive check fired: a request with
    id 7 is on the queue. *)
Definition awaiting_reply : Chewie.t Session :=
  default fresh
    (Chewie.send_preemptive_identity_request_if_no_active_on_port 0 port1
       (Chewie.port_up port1 fresh)).

(** An Identity Response with id 7 from the first client. *)
Definition response7 : EapMessage := mkEapMessage client1 (Some 7) "".


(** A MAB loop that runs once and is stopped during the back-off. *)
Definition one_round : list Chewie.MabTick :=
  [Chewie.mkMabTick true None None true;
   Chewie.mkMabTick false None None false].

(** A dispatcher whose EAP socket was closed. *)
Definition socket_closed : Chewie.t Session :=
  Chewie.set_eap_socket (Some (NfvSockets.EapSocket.mk None)) fresh.

End Scenario.

(** The frames [MabSocket.receive] is documented to return: IPv4
    protocol byte (offset 23) UDP, UDP source port (offsets 34-35,
    big-endian) 68 and destination port (offsets 36-37) 67. *)
Definition dhcp_client_frame (pkt : list byte) : Prop :=
  pkt !! 23%nat = Some x11
  ∧ pkt !! 34%nat = Some x00 ∧ pkt !! 35%nat = Some x44
  ∧ pkt !! 36%nat = Some x00 ∧ pkt !! 37%nat = Some x43.

(** The attributes no state machine can reach: a machine holds the
    output queues, the scheduler and the three [auth_*] methods, and
    none of those writes one of these. *)
Definition same_ports {SM : Type} (s s' : Chewie.t SM) : Prop :=
  Chewie.running s' = Chewie.running s
  ∧ Chewie.port_to_eapol_id s' = Chewie.port_to_eapol_id s
  ∧ Chewie.port_status s' = Chewie.port_status s
  ∧ Chewie.random_ids s' = Chewie.random_ids s
  ∧ Chewie.drawn s' = Chewie.drawn s
  ∧ Chewie.eap_socket s' = Chewie.eap_socket s.

(** No call of [auth_success] among the actions. *)
Definition no_auth_success (acts : list Action) : Prop :=
  ∀ src_mac port_id period, AuthSuccess src_mac port_id period ∉ acts.


(** The actions that write the scheduler: a timer of the machine's
    own, a cancellation, or [auth_success], which registers the
    re-authentication. *)
Definition touches_scheduler (a : Action) : Prop :=
  match a with
  | CallLater _ | CancelJob _ | AuthSuccess _ _ _ => True
  | _ => False
  end.

Definition scheduler_quiet (acts : list Action) : Prop :=
  ∀ a, a ∈ acts → ¬ touches_scheduler a.

(** The inputs that write the preemptive id recorded for [port_id]:
    [port_down] removes it, the two senders of identity requests
    replace it. *)
Definition rewrites_preemptive_id (port_id : string) (i : Chewie.Input)
    : Prop :=
  match i with
  | Chewie.call_port_down q => q = port_id
  | Chewie.fire_preemptive q => q = port_id
  | Chewie.fire_reauth _ q => q = port_id
  | _ => False
  end.

(** ** More of the sources: the RADIUS socket, the set-up of the
    sockets, [run] and [cleanup], the senders *)

(** Exceptions besides those of [exn]: the use of an attribute of
    [None], and a missing dictionary key. *)
Inductive PyError : Type :=
| Builtin (e : exn)
| AttributeError
| KeyError (key : Z).

Inductive Outcome (A : Type) : Type :=
| Done (a : A)
| Fails (e : PyError).
Arguments Done {A} a.
Arguments Fails {A} e.

(** ** radius_socket.py *)

Module RadiusSocket.

(** The [socket] attribute: [None] until [setup] created the socket;
    [close] does not reset it. *)
Record t : Type := mk { socket : option Z }.

(** The kernel's answers to [socket.socket(...)] (a descriptor or an
    errno) and to [bind]. *)
Record SetupEnv : Type := mkSetupEnv {
  socket_answer : Z + Z;
  bind_errno : option Z
}.

(** [setup]: the outcome and the object afterwards.  The handler logs
    and re-raises. *)
Definition setup (env : SetupEnv) (self : t) : Outcome unit * t :=
  match socket_answer env with
  | inr errno => (Fails (Builtin (OSError errno)), self)
  | inl fd =>
      match bind_errno env with
      | Some errno => (Fails (Builtin (OSError errno)), mk (Some fd))
      | None => (Done tt, mk (Some fd))
      end
  end.

(** [BlockingIOError] is the [OSError] of the errnos EAGAIN /
    EWOULDBLOCK (11), EALREADY (114) and EINPROGRESS (115). *)
Definition is_BlockingIOError (e : exn) : bool :=
  match e with
  | OSError n => (n =? 11) || (n =? 114) || (n =? 115)
  | _ => false
  end.

Inductive Received : Type :=
| Returned (data : list byte) (rest : list NfvSockets.SockEvent)
| Raised (e : PyError) (rest : list NfvSockets.SockEvent)
| Awaiting.

(** The future of [receive] under the calls of [_read_ready], one for
    each time the socket is readable: [recvfrom] gives a datagram,
    which resolves the future, or raises; a [BlockingIOError] is
    logged and the future stays pending, any other exception is set
    on the future.  (An exception in the list that is not an
    [OSError] also stands for the cancellation of the waiting task.) *)
Fixpoint await_read (incoming : list NfvSockets.SockEvent) : Received :=
  match incoming with
  | [] => Awaiting
  | NfvSockets.SockData data :: rest => Returned data rest
  | NfvSockets.SockFail e :: rest =>
      if is_BlockingIOError e then await_read rest
      else Raised (Builtin e) rest
  end.

(** [receive]: [self.socket.fileno()] needs a socket. *)
Definition receive (self : t) (incoming : list NfvSockets.SockEvent)
    : Received :=
  match socket self with
  | None => Raised AttributeError incoming
  | Some _ => await_read incoming
  end.

(** [close]: the outcome and the system calls made.  Only the
    [shutdown] is guarded. *)
Definition close (env : NfvSockets.EapSocket.CloseEnv) (self : t)
    : Outcome unit * list NfvSockets.EapSocket.Syscall :=
  match socket self with
  | None => (Fails AttributeError, [])
  | Some fd =>
      match NfvSockets.EapSocket.close_errno env with
      | Some errno =>
          (Fails (Builtin (OSError errno)),
           [NfvSockets.EapSocket.SysShutdown fd;
            NfvSockets.EapSocket.SysClose fd])
      | None =>
          (Done tt,
           [NfvSockets.EapSocket.SysShutdown fd;
            NfvSockets.EapSocket.SysClose fd])
      end
  end.

End RadiusSocket.

(** ** nfv_sockets.py: the set-up of a promiscuous socket *)

Module PromiscuousSocket.

Record t : Type := mk {
  socket : option Z;
  interface_index : option Z
}.

(** The kernel's answers to [socket.socket], [bind], the
    [SIOCGIFINDEX] ioctl (the interface index, or an errno) and
    [setsockopt]. *)
Record SetupEnv : Type := mkSetupEnv {
  socket_answer : Z + Z;
  bind_errno : option Z;
  ioctl_answer : Z + Z;
  setsockopt_errno : option Z
}.

(** [open] *)
Definition open (env : SetupEnv) (self : t) : Result unit * t :=
  match socket_answer env with
  | inr errno => (Raise (OSError errno), self)
  | inl fd =>
      let self := mk (Some fd) (interface_index self) in
      match bind_errno env with
      | Some errno => (Raise (OSError errno), self)
      | None => (Ok tt, self)
      end
  end.

(** [get_interface_index]: the request and the reply are 20 bytes,
    name and index; only the index read back is kept. *)
Definition get_interface_index (env : SetupEnv) (self : t)
    : Result unit * t :=
  match ioctl_answer env with
  | inr errno => (Raise (OSError errno), self)
  | inl index => (Ok tt, mk (socket self) (Some index))
  end.

(** [set_interface_promiscuous] *)
Definition set_interface_promiscuous (env : SetupEnv) (self : t)
    : Result unit * t :=
  match setsockopt_errno env with
  | Some errno => (Raise (OSError errno), self)
  | None => (Ok tt, self)
  end.

(** [_setup]: the three steps in order, stopping at the first that
    raises; the handler logs and re-raises. *)
Definition _setup (env : SetupEnv) (self : t) : Result unit * t :=
  match open env self with
  | (Raise e, self) => (Raise e, self)
  | (Ok _, self) =>
      match get_interface_index env self with
      | (Raise e, self) => (Raise e, self)
      | (Ok _, self) => set_interface_promiscuous env self
      end
  end.

End PromiscuousSocket.

(** ** chewie.py: [run], [cleanup] and the set-up of the sockets *)

Module Daemon.

(** A [Chewie] object with the sockets that [Chewie.t] leaves out.
    The EAP socket object is [Chewie.eap_socket], which holds its
    [socket] attribute; its interface index is kept here. *)
Record t (SM : Type) : Type := mk {
  dispatcher : Chewie.t SM;
  eap_interface_index : option Z;
  mab_socket : option PromiscuousSocket.t;
  radius_socket : option RadiusSocket.t
}.
Arguments mk {SM}.
Arguments dispatcher {SM}.
Arguments eap_interface_index {SM}.
Arguments mab_socket {SM}.
Arguments radius_socket {SM}.

(** What the rest of the world answers during [run]. *)
Record Env (SM : Type) : Type := mkEnv {
  eap_setup : PromiscuousSocket.SetupEnv;
  mab_setup : PromiscuousSocket.SetupEnv;
  radius_setup : RadiusSocket.SetupEnv;
  (** [start_threads_and_wait]: what the six tasks did to the object
      and how the wait ended. *)
  threads : t SM → Result unit * t SM;
  eap_close : NfvSockets.EapSocket.CloseEnv;
  radius_close : NfvSockets.EapSocket.CloseEnv
}.
Arguments eap_setup {SM}.
Arguments mab_setup {SM}.
Arguments radius_setup {SM}.
Arguments threads {SM}.
Arguments eap_close {SM}.
Arguments radius_close {SM}.

Section Run.
Context {SM : Type}.
Implicit Type d : t SM.

Definition lift (r : Result unit) : Outcome unit :=
  match r with
  | Ok a => Done a
  | Raise e => Fails (Builtin e)
  end.

(** [setup_eap_socket]: a new [EapSocket] is stored, then set up. *)
Definition setup_eap_socket (env : PromiscuousSocket.SetupEnv) d
    : Outcome unit * t SM :=
  let '(r, sock) :=
    PromiscuousSocket._setup env (PromiscuousSocket.mk None None) in
  (lift r,
   mk (Chewie.set_eap_socket
         (Some (NfvSockets.EapSocket.mk (PromiscuousSocket.socket sock)))
         (dispatcher d))
      (PromiscuousSocket.interface_index sock)
      (mab_socket d) (radius_socket d)).

Definition setup_mab_socket (env : PromiscuousSocket.SetupEnv) d
    : Outcome unit * t SM :=
  let '(r, sock) :=
    PromiscuousSocket._setup env (PromiscuousSocket.mk None None) in
  (lift r,
   mk (dispatcher d) (eap_interface_index d) (Some sock) (radius_socket d)).

Definition setup_radius_socket (env : RadiusSocket.SetupEnv) d
    : Outcome unit * t SM :=
  let '(r, sock) := RadiusSocket.setup env (RadiusSocket.mk None) in
  (r, mk (dispatcher d) (eap_interface_index d) (mab_socket d) (Some sock)).

(** [cleanup]: the outcome, the object afterwards and the system
    calls made. *)
Definition cleanup (env : Env SM) d
    : Outcome unit * t SM * list NfvSockets.EapSocket.Syscall :=
  let c := Chewie.set_running false (dispatcher d) in
  let step1 : Outcome unit * Chewie.t SM * list NfvSockets.EapSocket.Syscall :=
    match Chewie.eap_socket c with
    | None => (Done tt, c, [])
    | Some sock =>
        match NfvSockets.EapSocket.close (eap_close env) sock with
        | Ok (sock', calls) =>
            (Done tt, Chewie.set_eap_socket (Some sock') c, calls)
        | Raise e => (Fails (Builtin e), c, [])
        end
    end in
  let '(r1, c1, calls1) := step1 in
  let d1 := mk c1 (eap_interface_index d) (mab_socket d) (radius_socket d) in
  match r1 with
  | Fails e => (Fails e, d1, calls1)
  | Done _ =>
      match radius_socket d with
      | None => (Done tt, d1, calls1)
      | Some rsock =>
          let '(r2, calls2) := RadiusSocket.close (radius_close env) rsock in
          (r2, d1, calls1 ++ calls2)
      end
  end.

Definition set_running (v : bool) d : t SM :=
  mk (Chewie.set_running v (dispatcher d)) (eap_interface_index d)
     (mab_socket d) (radius_socket d).

(** The [try] block of [run]. *)
Definition run_body (env : Env SM) d : Outcome unit * t SM :=
  match setup_eap_socket (eap_setup env) d with
  | (Fails e, d) => (Fails e, d)
  | (Done _, d) =>
      match setup_mab_socket (mab_setup env) d with
      | (Fails e, d) => (Fails e, d)
      | (Done _, d) =>
          match setup_radius_socket (radius_setup env) d with
          | (Fails e, d) => (Fails e, d)
          | (Done _, d) => let '(r, d) := threads env d in (lift r, d)
          end
      end
  end.

Definition is_Cancelled (e : PyError) : bool :=
  match e with Builtin CancelledError => true | _ => false end.

(** [run]: [except asyncio.CancelledError] swallows the cancellation,
    [finally] runs [cleanup], whose exception, if any, replaces the
    one in flight. *)
Definition run (env : Env SM) d
    : Outcome unit * t SM * list NfvSockets.EapSocket.Syscall :=
  let '(r, d1) := run_body env (set_running true d) in
  let r :=
    match r with
    | Fails e => if is_Cancelled e then Done tt else Fails e
    | Done _ => Done tt
    end in
  let '(rc, d2, calls) := cleanup env d1 in
  match rc with
  | Fails e => (Fails e, d2, calls)
  | Done _ => (r, d2, calls)
  end.

End Run.

End Daemon.

(** ** chewie.py: [unpack_byte_string] *)

(** The digit ["%x"] prints for a value below 16: the characters
    0-9 (codes 48-57) and a-f (codes 97-102). *)
Definition hex_digit (n : N) : Ascii.ascii :=
  if (n <? 10)%N then Ascii.ascii_of_N (48 + n) else Ascii.ascii_of_N (87 + n).

(** ["%02x" % x] for an element [x] of a byte string: two digits, the
    high one first, padded with a zero. *)
Definition format_02x (x : byte) : string :=
  String (hex_digit (Byte.to_N x / 16))
    (String (hex_digit (Byte.to_N x mod 16)) EmptyString).

(** [unpack_byte_string]: ["".join("%02x" % x for x in byte_string)] *)
Definition unpack_byte_string (byte_string : list byte) : string :=
  String.concat "" (format_02x <$> byte_string).

(** Reading two hexadecimal digits back, to tell the printed bytes
    apart. *)
Definition hex_value (c : Ascii.ascii) : option N :=
  let n := Ascii.N_of_ascii c in
  if (48 <=? n)%N && (n <=? 57)%N then Some (n - 48)%N
  else if (97 <=? n)%N && (n <=? 102)%N then Some (n - 87)%N
  else None.

Definition parse_02x (a b : Ascii.ascii) : option byte :=
  h ← hex_value a; l ← hex_value b; Byte.of_N (16 * h + l).

(** ** chewie.py: the sender of EAP frames and the RADIUS receiver *)

(** [MessagePacker.ethernet_pack(message, src, dst)] and
    [MessageParser.radius_parse(packed, secret, radius_lifecycle)] of
    [chewie.message_parser]. *)
Class Codecs : Type := {
  ethernet_pack : OutMessage → string → string → Result (list byte);
  radius_parse : list byte → Result (Z * string)
}.

(** How a task stands after the environment's answers were used up. *)
Inductive TaskEnd : Type :=
| TaskReturns
| TaskEscapes (e : PyError)
| TaskSuspended                   (* waiting for the queue or the socket *)
| TaskPending.                    (* at the loop head, still running *)

(** One iteration of [send_eap_messages]: [self.running] at the loop
    test, an exception delivered at the [sleep], what the other tasks
    have put on the queue since the last iteration, and the kernel's
    answer to the [sock_sendall]. *)
Record SendTick : Type := mkSendTick {
  send_running : bool;
  send_sleep0 : option exn;
  send_arrivals : list EapQueueMessage;
  send_errno : option Z
}.

(** One iteration of [receive_radius_messages]: [self.running] at the
    loop test, an exception delivered at the [sleep], and
    [radius_lifecycle.packet_id_to_mac] as it is when the reply is
    routed (the sender task fills it). *)
Record RadiusTick : Type := mkRadiusTick {
  radius_running : bool;
  radius_sleep0 : option exn;
  radius_packet_id_to_mac : gmap Z (string * string)
}.

Module Tasks.

Section Tasks.
Context {SM : Type} `{!StateMachine SM} `{!Codecs}.
Implicit Type s : Chewie.t SM.

(** [EapSocket.send]: one [sock_sendall] on the descriptor; with
    [socket] being [None] the event loop's [sock.send] is the use of
    an attribute of [None]. *)
Definition EapSocket_send (self : NfvSockets.EapSocket.t) (data : list byte)
    (answer : option Z) : Outcome unit :=
  match NfvSockets.EapSocket.socket self with
  | None => Fails AttributeError
  | Some fd =>
      match NfvSockets.EapSocket.syscall answer with
      | Ok _ => Done tt
      | Raise e => Fails (Builtin e)
      end
  end.

Definition sent (frame : list byte)
    (r : list (list byte) * TaskEnd * Chewie.t SM)
    : list (list byte) * TaskEnd * Chewie.t SM :=
  let '(frames, e, s) := r in (frame :: frames, e, s).

(** [send_eap_messages]: the frames handed to the socket, in order.
    In the call [self.eap_socket.send(ethernet_pack(...))] the method
    is looked up before the argument is evaluated. *)
Fixpoint send_eap_messages (ticks : list SendTick) s
    : list (list byte) * TaskEnd * Chewie.t SM :=
  match ticks with
  | [] => ([], TaskPending, s)
  | tk :: ticks' =>
      let s := Chewie.set_running (send_running tk) s in
      if negb (Chewie.running s) then ([], TaskReturns, s)
      else
        match send_sleep0 tk with
        | Some e => ([], TaskEscapes (Builtin e), s)
        | None =>
            let s :=
              Chewie.set_eap_output_messages
                (Chewie.eap_output_messages s ++ send_arrivals tk) s in
            match Chewie.eap_output_messages s with
            | [] => ([], TaskSuspended, s)
            | eap_queue_message :: queue =>
                let s := Chewie.set_eap_output_messages queue s in
                match Chewie.eap_socket s with
                | None => ([], TaskEscapes AttributeError, s)
                | Some sock =>
                    match ethernet_pack (qm_message eap_queue_message)
                            (qm_port_mac eap_queue_message)
                            (qm_src_mac eap_queue_message) with
                    | Raise e => ([], TaskEscapes (Builtin e), s)
                    | Ok frame =>
                        match EapSocket_send sock frame (send_errno tk) with
                        | Fails e => ([], TaskEscapes e, s)
                        | Done _ => sent frame (send_eap_messages ticks' s)
                        end
                    end
                end
            end
        end
  end.

(** [get_state_machine_from_radius_packet_id]:
    [packet_id_to_mac[packet_id]] raises [KeyError] for an id that is
    not there; the entry gives the client and the port, and
    [message_id] keeps its default. *)
Definition get_state_machine_from_radius_packet_id
    (packet_id_to_mac : gmap Z (string * string)) (packet_id : Z) s
    : Outcome (SM * Chewie.t SM) :=
  match packet_id_to_mac !! packet_id with
  | None => Fails (KeyError packet_id)
  | Some (src_mac, port_id) =>
      Done (Chewie.get_state_machine src_mac port_id (-1) s)
  end.

(** [send_radius_to_state_machine] on a parsed reply (its packet id
    and what the event carries). *)
Definition send_radius_to_state_machine
    (packet_id_to_mac : gmap Z (string * string)) (radius : Z * string) s
    : Outcome (Chewie.t SM) :=
  match packet_id_to_mac !! radius.1 with
  | None => Fails (KeyError radius.1)
  | Some (src_mac, port_id) =>
      match get_state_machine_from_radius_packet_id packet_id_to_mac
              radius.1 s with
      | Fails e => Fails e
      | Done (_, s1) =>
          Done (Chewie.deliver port_id src_mac
                  (EventRadiusMessageReceived radius.2) s1)
      end
  end.

(** [receive_radius_messages] *)
Fixpoint receive_radius_messages (ticks : list RadiusTick)
    (radius_socket : option RadiusSocket.t)
    (incoming : list NfvSockets.SockEvent) s : TaskEnd * Chewie.t SM :=
  match ticks with
  | [] => (TaskPending, s)
  | tk :: ticks' =>
      let s := Chewie.set_running (radius_running tk) s in
      if negb (Chewie.running s) then (TaskReturns, s)
      else
        match radius_sleep0 tk with
        | Some e => (TaskEscapes (Builtin e), s)
        | None =>
            match radius_socket with
            | None => (TaskEscapes AttributeError, s)
            | Some sock =>
                match RadiusSocket.receive sock incoming with
                | RadiusSocket.Awaiting => (TaskSuspended, s)
                | RadiusSocket.Raised e _ => (TaskEscapes e, s)
                | RadiusSocket.Returned packed_message rest =>
                    match radius_parse packed_message with
                    | Raise e =>
                        if Chewie.is_MessageParseError e
                        then receive_radius_messages ticks' radius_socket
                               rest s                    (* continue *)
                        else (TaskEscapes (Builtin e), s)
                    | Ok radius =>
                        match send_radius_to_state_machine
                                (radius_packet_id_to_mac tk) radius s with
                        | Fails e => (TaskEscapes e, s)
                        | Done s' =>
                            receive_radius_messages ticks' radius_socket
                              rest s'
                        end
                    end
                end
            end
        end
  end.

End Tasks.

End Tasks.

(** An iteration of the sender that nothing disturbs: the task is
    running and not cancelled, nothing new was queued, the kernel
    takes the frame. *)
Definition calm_send (tk : SendTick) : Prop :=
  send_running tk = true ∧ send_sleep0 tk = None
  ∧ send_arrivals tk = [] ∧ send_errno tk = None.

(** An iteration of the RADIUS receiver that is running and not
    cancelled. *)
Definition calm_radius (tk : RadiusTick) : Prop :=
  radius_running tk = true ∧ radius_sleep0 tk = None.

(** ** Concrete settings for the senders, the sockets and [run] *)

Module Cases.
Import Scenario.

(** The dispatcher of [two_sessions] with a random source that
    returns 5, the [current_id] of the authenticated client, at every
    draw. *)
Definition stuck_source : Chewie.t Session :=
  Chewie.mk true (mkHandlers true true true)
    {[ port1 := {[ client1 := authenticated; client2 := authenticating ]} ]}
    ∅ {[ port1 := true ]} ∅ [] [] [] None (fun _ => 5) 0 [] [].

(** A DHCP request from the second client, as parsed. *)
Definition dhcp_packet : EthernetPacket :=
  mkEthernetPacket port1 client2 dhcp_frame.

(** An EAPOL start from the second client: no message id. *)
Definition eapol_start : EapMessage := mkEapMessage client2 None "".

(** A frame of 60 zero bytes: not UDP. *)
Definition other_frame : list byte := frame 60 [].

(** What arrives from the network while port 1 waits for the answer
    to its preemptive request. *)
Definition traffic : list Chewie.Input :=
  [Chewie.eap_received response7 port1; Chewie.call_port_up port2;
   Chewie.machine_timer_fired port1 client1;
   Chewie.radius_received client2 port1 ""; Chewie.call_stop].

(** A packer that marks what it packed, and a RADIUS parser that
    takes the first byte as the packet id and refuses the empty
    datagram. *)
#[export] Instance codecs : Codecs := {|
  ethernet_pack m _ _ :=
    match m with
    | OutIdentity _ => Ok [x01]
    | OutFromMachine packed => Ok (x02 :: String.list_byte_of_string packed)
    end;
  radius_parse b :=
    match b with
    | [] => Raise MessageParseError
    | x :: _ => Ok (Z.of_N (Byte.to_N x), "")
    end
|}.

Definition challenge1 : EapQueueMessage :=
  mkEapQueueMessage (OutFromMachine "a") client1 port1.
Definition challenge2 : EapQueueMessage :=
  mkEapQueueMessage (OutFromMachine "b") client2 port1.

(** A dispatcher with an open EAP socket and two messages queued. *)
Definition two_queued : Chewie.t Session :=
  Chewie.set_eap_output_messages [challenge1; challenge2]
    (Chewie.set_eap_socket (Some (NfvSockets.EapSocket.mk (Some 3))) fresh).

Definition send_ok : SendTick := mkSendTick true None [] None.
Definition send_refused : SendTick := mkSendTick true None [] (Some 100).

(** An iteration of the RADIUS receiver while no request is
    outstanding. *)
Definition nothing_outstanding : RadiusTick := mkRadiusTick true None ∅.

Definition radius_sock : RadiusSocket.t := RadiusSocket.mk (Some 5).

(** A host on which every set-up call succeeds and the tasks end at
    once without touching the object. *)
Definition healthy : Daemon.Env Session :=
  Daemon.mkEnv Session
    (PromiscuousSocket.mkSetupEnv (inl 3) None (inl 2) None)
    (PromiscuousSocket.mkSetupEnv (inl 4) None (inl 2) None)
    (RadiusSocket.mkSetupEnv (inl 5) None)
    (fun d => (Ok tt, d))
    (NfvSockets.EapSocket.mkEnv None None)
    (NfvSockets.EapSocket.mkEnv None None).

Definition new_daemon : Daemon.t Session := Daemon.mk fresh None None None.

End Cases.

(** ** A session that a late RADIUS reply authenticates *)

Module Accepting.

(** A supplicant session that is authenticated from the first RADIUS
    reply it is handed on (an Access-Accept), and puts nothing on the
    queues by itself. *)
Record Session : Type := mkSession {
  accepted : bool;
  last_id : option Z
}.

#[export] Instance Session_machine : StateMachine Session := {|
  FullEAPStateMachine _ _ := mkSession false (Some 0);
  MacAuthenticationBypassStateMachine _ _ := mkSession false None;
  is_in_progress _ := false;
  is_success := accepted;
  current_id := last_id;
  event ev sm :=
    match ev with
    | EventRadiusMessageReceived _ => (mkSession true (last_id sm), [])
    | _ => (sm, [])
    end
|}.



End Accepting.

(** * Properties *)

(** ** MabSocket.receive *)

Section MabSocketFacts.
Import NfvSockets NfvSockets.MabSocket.

Lemma unpack_H_eq (hi lo : byte) (hi' lo' : byte) :
  Z.of_N (Byte.to_N hi) * 256 + Z.of_N (Byte.to_N lo)
  = Z.of_N (Byte.to_N hi') * 256 + Z.of_N (Byte.to_N lo')
  → hi = hi' ∧ lo = lo'.
Proof.
  intros Heq.
  pose proof (Byte.to_N_bounded hi). pose proof (Byte.to_N_bounded lo).
  pose proof (Byte.to_N_bounded hi'). pose proof (Byte.to_N_bounded lo').
  assert (Byte.to_N hi = Byte.to_N hi' ∧ Byte.to_N lo = Byte.to_N lo')
    as [Hh Hl] by lia.
  split.
  - apply (f_equal Byte.of_N) in Hh. rewrite !Byte.of_to_N in Hh. congruence.
  - apply (f_equal Byte.of_N) in Hl. rewrite !Byte.of_to_N in Hl. congruence.
Qed.

Lemma unpack_H_pair (hi lo : byte) (n : Z) (hi' lo' : byte) :
  n = Z.of_N (Byte.to_N hi') * 256 + Z.of_N (Byte.to_N lo')
  → unpack_H [hi; lo] = Ok (Z.of_N (Byte.to_N hi) * 256 + Z.of_N (Byte.to_N lo))
    ∧ ((Z.of_N (Byte.to_N hi) * 256 + Z.of_N (Byte.to_N lo) =? n) = true
       ↔ hi = hi' ∧ lo = lo').
Proof.
  intros ->. split; [reflexivity|].
  rewrite Z.eqb_eq. split.
  - apply unpack_H_eq.
  - by intros [-> ->].
Qed.

(** On a frame long enough to hold the UDP ports the filter decides
    exactly the documented predicate. *)
Lemma filter_frame_long (pkt : list byte) :
  (38 ≤ length pkt)%nat
  → filter_frame pkt = Ok (bool_decide (dhcp_client_frame pkt)).
Proof.
  intros Hlen.
  do 38 (destruct pkt as [|? pkt]; [simpl in Hlen; lia|]).
  clear Hlen.
  destruct (unpack_H_pair b33 b34 DHCP_UDP_SRC x00 x44 eq_refl) as [_ Hsrc].
  destruct (unpack_H_pair b35 b36 DHCP_UDP_DST x00 x43 eq_refl) as [_ Hdst].
  assert (dhcp_client_frame
            (b :: b0 :: b1 :: b2 :: b3 :: b4 :: b5 :: b6 :: b7 :: b8 :: b9
               :: b10 :: b11 :: b12 :: b13 :: b14 :: b15 :: b16 :: b17 :: b18
               :: b19 :: b20 :: b21 :: b22 :: b23 :: b24 :: b25 :: b26 :: b27
               :: b28 :: b29 :: b30 :: b31 :: b32 :: b33 :: b34 :: b35 :: b36
               :: pkt)
          ↔ b22 = x11 ∧ (b33 = x00 ∧ b34 = x44) ∧ (b35 = x00 ∧ b36 = x43))
    as Hspec.
  { unfold dhcp_client_frame. cbn. split.
    - intros (? & ? & ? & ? & ?). by simplify_eq.
    - by intros (-> & [-> ->] & [-> ->]). }
  rewrite (bool_decide_ext _ _ Hspec).
  unfold filter_frame.
  replace (slice 23 24 _) with [b22] by reflexivity.
  replace (slice 34 36 _) with [b33; b34] by reflexivity.
  replace (slice 36 38 _) with [b35; b36] by reflexivity.
  unfold UDP_IPTYPE, unpack_H, mbind, Result_bind.
  case_decide as H23.
  - f_equal. apply eq_true_iff_eq.
    rewrite andb_true_iff, Hsrc, Hdst, bool_decide_eq_true.
    injection H23 as ->. split; [by intros [? ?] | by intros (_ & ? & ?)].
  - f_equal. symmetry. apply bool_decide_eq_false. intros [-> _]. by apply H23.
Qed.

(** A frame the filter accepts is a DHCP client frame, whatever its
    length. *)
Lemma filter_frame_true (pkt : list byte) :
  filter_frame pkt = Ok true → dhcp_client_frame pkt.
Proof.
  intros H. destruct (decide (38 ≤ length pkt)%nat) as [Hl|Hl].
  - rewrite filter_frame_long in H by done.
    injection H as H. by apply bool_decide_eq_true in H.
  - exfalso. revert H. unfold filter_frame.
    do 38 (destruct pkt as [|? pkt];
           [case_decide; [|discriminate]; by (discriminate || cbn)|]).
    simpl in Hl. lia.
Qed.

Lemma receive_drops (pkt : list byte) (rest : list SockEvent) :
  filter_frame pkt = Ok false
  → receive (SockData pkt :: rest) = receive rest.
Proof. intros H. simpl. by rewrite H. Qed.

Lemma receive_returns (pkt : list byte) (rest : list SockEvent) :
  filter_frame pkt = Ok true
  → receive (SockData pkt :: rest) = Returned pkt rest.
Proof. intros H. simpl. by rewrite H. Qed.

(** Whatever [receive] returns is a DHCP client frame. *)
Lemma receive_returns_only_dhcp (incoming : list SockEvent)
    (pkt : list byte) (rest : list SockEvent) :
  receive incoming = Returned pkt rest → dhcp_client_frame pkt.
Proof.
  induction incoming as [|[p|e] incoming IH]; cbn; [done| |done].
  destruct (filter_frame p) as [[]|] eqn:Hp; [|exact IH|done].
  intros [= <- _]. by apply filter_frame_true.
Qed.

(** Frames long enough to hold the UDP ports that are not DHCP client
    frames are skipped, and reception goes on with what follows. *)
Lemma receive_skips_long_frames (pre : list (list byte))
    (rest : list SockEvent) :
  Forall (λ p, (38 ≤ length p)%nat ∧ ¬ dhcp_client_frame p) pre
  → receive ((SockData <$> pre) ++ rest) = receive rest.
Proof.
  induction 1 as [|p pre [Hlen Hno] _ IH]; [done|].
  cbn [fmap list_fmap app]. rewrite receive_drops; [exact IH|].
  rewrite filter_frame_long by done. by rewrite bool_decide_eq_false_2.
Qed.

(** C4, at a frame the socket can deliver: Ethernet and IPv4 headers
    announcing UDP with no UDP header behind them (34 bytes).  The
    frame fails the DHCP test, yet [receive] does not drop it and go on
    to the DHCP request that follows: [struct.unpack] raises
    [struct.error] out of [receive]. *)
Theorem mab_receive_short_frame_raises :
  ¬ dhcp_client_frame Scenario.truncated_udp_frame
  ∧ dhcp_client_frame Scenario.dhcp_frame
  ∧ receive [SockData Scenario.truncated_udp_frame; SockData Scenario.dhcp_frame]
    = Raised StructError [SockData Scenario.dhcp_frame]
  ∧ receive [SockData Scenario.dhcp_frame] = Returned Scenario.dhcp_frame [].
Proof.
  split; [|split; [|split]].
  - intros (_ & H & _). vm_compute in H. discriminate.
  - repeat split.
  - reflexivity.
  - reflexivity.
Qed.

End MabSocketFacts.

(** ** The dispatcher: what each operation leaves alone *)

Section DispatcherFacts.
Context {SM : Type} `{!StateMachine SM}.
Implicit Type s : Chewie.t SM.
Import Chewie.

Lemma same_ports_refl s : same_ports s s.
Proof. by repeat split. Qed.

Lemma same_ports_trans s1 s2 s3 :
  same_ports s1 s2 → same_ports s2 s3 → same_ports s1 s3.
Proof.
  intros (?&?&?&?&?&?) (?&?&?&?&?&?). repeat split; congruence.
Qed.

Lemma perform_same_ports a s : same_ports s (perform a s).
Proof.
  destruct a; cbn; unfold auth_success, auth_failure, auth_logoff;
    repeat case_match; by repeat split.
Qed.

Lemma perform_state_machines a s :
  state_machines (perform a s) = state_machines s.
Proof.
  destruct a; cbn; unfold auth_success, auth_failure, auth_logoff;
    repeat case_match; done.
Qed.

Lemma perform_all_cons a acts s :
  perform_all (a :: acts) s = perform_all acts (perform a s).
Proof. reflexivity. Qed.

Lemma perform_all_same_ports acts s : same_ports s (perform_all acts s).
Proof.
  revert s. induction acts as [|a acts IH]; intros s.
  - apply same_ports_refl.
  - rewrite perform_all_cons.
    eapply same_ports_trans; [apply (perform_same_ports a)|apply IH].
Qed.

Lemma perform_all_state_machines acts s :
  state_machines (perform_all acts s) = state_machines s.
Proof.
  revert s. induction acts as [|a acts IH]; intros s; [done|].
  by rewrite perform_all_cons, IH, perform_state_machines.
Qed.

(** Without a call of [auth_success] the table of jobs stays as it
    is. *)
Lemma perform_all_jobs acts s :
  no_auth_success acts
  → port_to_identity_job (perform_all acts s) = port_to_identity_job s.
Proof.
  revert s. induction acts as [|a acts IH]; intros s Hno; [done|].
  assert (no_auth_success acts) as Hno'.
  { intros ??? Hin. eapply Hno. by right. }
  rewrite perform_all_cons, (IH (perform a s) Hno').
  destruct a as [| | | |src_mac port_id period| |]; cbn;
    unfold auth_failure, auth_logoff; repeat case_match; cbn; try done.
  all: exfalso; apply (Hno src_mac port_id period); by left.
Qed.

Lemma foldl_invariant {A B : Type} (f : A → B → A) (I : A → Prop)
    (l : list B) (a : A) :
  I a → (∀ a b, I a → I (f a b)) → I (foldl f a l).
Proof.
  intros Ha Hstep. revert a Ha.
  induction l as [|b l IH]; intros a Ha; cbn; [done|]. apply IH, Hstep, Ha.
Qed.

Lemma lookup_machine_store port_id src_mac sm q m s :
  lookup_machine q m (store_machine port_id src_mac sm s)
  = if decide (q = port_id ∧ m = src_mac) then Some sm else lookup_machine q m s.
Proof.
  unfold lookup_machine, store_machine. cbn.
  destruct (decide (q = port_id)) as [->|Hq].
  - rewrite lookup_insert_eq. cbn.
    destruct (decide (m = src_mac)) as [->|Hm].
    + rewrite lookup_insert_eq. by rewrite decide_True.
    + rewrite lookup_insert_ne by done. rewrite decide_False; [done|].
      by intros [_ ?].
  - rewrite lookup_insert_ne by done. rewrite decide_False; [done|].
    by intros [? _].
Qed.

Lemma lookup_machine_Some_port port_id src_mac sm s :
  lookup_machine port_id src_mac s = Some sm
  → is_Some (state_machines s !! port_id).
Proof.
  unfold lookup_machine. destruct (state_machines s !! port_id); [eauto|].
  cbn. by rewrite lookup_empty.
Qed.

Lemma deliver_same_ports port_id src_mac ev s :
  same_ports s (deliver port_id src_mac ev s).
Proof.
  unfold deliver. destruct (lookup_machine port_id src_mac s) as [sm|];
    [|apply same_ports_refl].
  destruct (event ev sm) as [sm' acts].
  eapply same_ports_trans; [|apply perform_all_same_ports].
  by repeat split.
Qed.

Lemma deliver_state_machines_ne port_id src_mac ev q s :
  q ≠ port_id
  → state_machines (deliver port_id src_mac ev s) !! q = state_machines s !! q.
Proof.
  intros Hq. unfold deliver.
  destruct (lookup_machine port_id src_mac s) as [sm|]; [|done].
  destruct (event ev sm) as [sm' acts].
  rewrite perform_all_state_machines. cbn. by rewrite lookup_insert_ne.
Qed.

Lemma deliver_port_table port_id src_mac ev q s :
  is_Some (state_machines (deliver port_id src_mac ev s) !! q)
  ↔ is_Some (state_machines s !! q).
Proof.
  destruct (decide (q = port_id)) as [->|Hq];
    [|by rewrite deliver_state_machines_ne].
  unfold deliver.
  destruct (lookup_machine port_id src_mac s) as [sm|] eqn:Hsm; [|done].
  destruct (event ev sm) as [sm' acts].
  rewrite perform_all_state_machines. cbn. rewrite lookup_insert_eq.
  split; [intros _|eauto]. by eapply lookup_machine_Some_port.
Qed.

Lemma deliver_lookup_machine port_id src_mac ev q m s :
  lookup_machine q m (deliver port_id src_mac ev s)
  = if decide (q = port_id ∧ m = src_mac)
    then (λ sm, (event ev sm).1) <$> lookup_machine q m s
    else lookup_machine q m s.
Proof.
  unfold deliver.
  destruct (lookup_machine port_id src_mac s) as [sm|] eqn:Hsm.
  - destruct (event ev sm) as [sm' acts] eqn:Hev.
    transitivity (lookup_machine q m
                    (store_machine port_id src_mac sm'
                       (set_event_log
                          (event_log s ++ [(port_id, src_mac, ev)]) s))).
    { unfold lookup_machine. by rewrite perform_all_state_machines. }
    rewrite lookup_machine_store.
    case_decide as Hd; [|done]. destruct Hd as [-> ->].
    unfold lookup_machine in *. cbn. rewrite Hsm. cbn. by rewrite Hev.
  - case_decide as Hd; [|done]. destruct Hd as [-> ->]. by rewrite Hsm.
Qed.

Lemma deliver_jobs port_id src_mac ev s :
  (∀ sm, no_auth_success (event ev sm).2)
  → port_to_identity_job (deliver port_id src_mac ev s)
    = port_to_identity_job s.
Proof.
  intros Hq. unfold deliver.
  destruct (lookup_machine port_id src_mac s) as [sm|]; [|done].
  specialize (Hq sm). destruct (event ev sm) as [sm' acts].
  by rewrite (perform_all_jobs acts
    (store_machine port_id src_mac sm'
       (set_event_log (event_log s ++ [(port_id, src_mac, ev)]) s)) Hq).
Qed.

(** *** set_port_status *)

Lemma set_port_status_ports port_id status s :
  port_status (set_port_status port_id status s)
  = <[port_id := status]> (port_status s)
  ∧ running (set_port_status port_id status s) = running s
  ∧ port_to_eapol_id (set_port_status port_id status s) = port_to_eapol_id s
  ∧ random_ids (set_port_status port_id status s) = random_ids s
  ∧ drawn (set_port_status port_id status s) = drawn s
  ∧ eap_socket (set_port_status port_id status s) = eap_socket s.
Proof.
  unfold set_port_status.
  match goal with |- context [foldl ?f ?a ?l] =>
    assert (same_ports a (foldl f a l)) as (?&?&?&?&?&?)
  end.
  { apply foldl_invariant; [apply same_ports_refl|].
    intros a b Ha. eapply same_ports_trans; [exact Ha|].
    apply deliver_same_ports. }
  repeat split; try (etrans; [eassumption|]); by case_match.
Qed.

Lemma set_port_status_state_machines_ne port_id status q s :
  q ≠ port_id
  → state_machines (set_port_status port_id status s) !! q
    = state_machines s !! q.
Proof.
  intros Hq. unfold set_port_status.
  match goal with |- context [foldl ?f ?a ?l] =>
    assert (state_machines (foldl f a l) !! q = state_machines a !! q) as ->
  end.
  { apply (foldl_invariant _ (λ s', state_machines s' !! q = _)); [done|].
    intros a b <-. by apply deliver_state_machines_ne. }
  case_match; cbn; [done|]. by rewrite lookup_insert_ne.
Qed.

Lemma set_port_status_port_table port_id status s :
  is_Some (state_machines (set_port_status port_id status s) !! port_id).
Proof.
  unfold set_port_status.
  match goal with |- context [foldl ?f ?a ?l] =>
    apply (foldl_invariant f (λ s', is_Some (state_machines s' !! port_id)) l a)
  end.
  - case_match eqn:Hp; cbn in *; [by rewrite Hp|]. by rewrite lookup_insert_eq.
  - intros a b Ha. by apply deliver_port_table.
Qed.

Lemma set_port_status_jobs port_id status s :
  (∀ sm, no_auth_success (event (EventPortStatusChange status) sm).2)
  → port_to_identity_job (set_port_status port_id status s)
    = port_to_identity_job s.
Proof.
  intros Hq. unfold set_port_status.
  match goal with |- context [foldl ?f ?a ?l] =>
    assert (port_to_identity_job (foldl f a l) = port_to_identity_job a) as ->
  end.
  { apply (foldl_invariant _ (λ s', port_to_identity_job s' = _)); [done|].
    intros a b <-. by apply deliver_jobs. }
  by case_match.
Qed.

(** *** port_down *)

Lemma cancel_lookup handle jobs job :
  TimerScheduler.cancel handle jobs !! handle = Some job
  → TimerScheduler.job_cancelled job = true.
Proof.
  unfold TimerScheduler.cancel. rewrite list_lookup_alter, decide_True by done.
  destruct (jobs !! handle); cbn; [|done]. by intros [= <-].
Qed.

Lemma port_down_fields port_id s :
  let s1 := set_port_status port_id false s in
  state_machines (port_down port_id s) = delete port_id (state_machines s1)
  ∧ port_to_eapol_id (port_down port_id s) = delete port_id (port_to_eapol_id s)
  ∧ port_status (port_down port_id s) = <[port_id := false]> (port_status s)
  ∧ port_to_identity_job (port_down port_id s) = port_to_identity_job s1
  ∧ timer_scheduler (port_down port_id s)
    = match port_to_identity_job s1 !! port_id with
      | Some j => TimerScheduler.cancel j (timer_scheduler s1)
      | None => timer_scheduler s1
      end
  ∧ eap_output_messages (port_down port_id s) = eap_output_messages s1
  ∧ running (port_down port_id s) = running s
  ∧ random_ids (port_down port_id s) = random_ids s
  ∧ drawn (port_down port_id s) = drawn s.
Proof.
  intros s1. unfold port_down. fold s1.
  destruct (set_port_status_ports port_id false s) as (Hst&Hrun&Hid&Hrnd&Hdr&_).
  fold s1 in Hst, Hrun, Hid, Hrnd, Hdr.
  destruct (set_port_status_port_table port_id false s) as [tbl Htbl].
  fold s1 in Htbl. rewrite Htbl.
  destruct (port_to_identity_job s1 !! port_id); cbn;
    by rewrite ?Hst, ?Hrun, ?Hid, ?Hrnd, ?Hdr.
Qed.

(** C3.  [port_down(P)] leaves no table of machines for P, the job
    stored for P is cancelled, P has no preemptive id, P is down; the
    entries of [state_machines], [port_to_eapol_id] and [port_status]
    of every other port are as before, and so is the whole of
    [port_to_identity_job], as long as no machine answers the
    port-status event by calling [auth_success], the one way a machine
    has to write that table. *)
Theorem port_down_clears_port (port_id : string) s :
  let s' := port_down port_id s in
  state_machines s' !! port_id = None
  ∧ (∀ j job, port_to_identity_job s' !! port_id = Some j
              → timer_scheduler s' !! j = Some job
              → TimerScheduler.job_cancelled job = true)
  ∧ port_to_eapol_id s' !! port_id = None
  ∧ port_status s' !! port_id = Some false
  ∧ (∀ q, q ≠ port_id
          → state_machines s' !! q = state_machines s !! q
            ∧ port_to_eapol_id s' !! q = port_to_eapol_id s !! q
            ∧ port_status s' !! q = port_status s !! q)
  ∧ ((∀ sm, no_auth_success (event (EventPortStatusChange false) sm).2)
     → port_to_identity_job s' = port_to_identity_job s).
Proof.
  intros s'. subst s'.
  destruct (port_down_fields port_id s) as (Hsm&Hid&Hst&Hjob&Hts&_).
  rewrite Hsm, Hid, Hst, Hjob, Hts. repeat split.
  - apply lookup_delete_eq.
  - intros j job Hj. rewrite Hj. apply cancel_lookup.
  - apply lookup_delete_eq.
  - apply lookup_insert_eq.
  - rewrite lookup_delete_ne by done.
    by apply set_port_status_state_machines_ne.
  - by rewrite lookup_delete_ne.
  - by rewrite lookup_insert_ne.
  - intros Hquiet. by apply set_port_status_jobs.
Qed.

(** *** The preemptive identity request *)

(** The request the dispatcher puts on the queue for [port_id]. *)
Lemma send_preemptive_identity_request_no_machine fuel port_id s :
  send_preemptive_identity_request fuel port_id None s
  = Some
      (set_eap_output_messages
         (eap_output_messages s
            ++ [mkEapQueueMessage
                  (OutIdentity
                     (mkIdentityMessage PAE_GROUP_ADDRESS
                        (random_ids s (drawn s)) Eap_REQUEST ""))
                  PAE_GROUP_ADDRESS port_id])
         (set_port_to_eapol_id
            (<[port_id := random_ids s (drawn s)]> (port_to_eapol_id s))
            (set_drawn (S (drawn s)) s))).
Proof. reflexivity. Qed.

Lemma any_active_true (machines : gmap string SM) :
  any_active machines = true
  ↔ ∃ mac sm, machines !! mac = Some sm
              ∧ (is_in_progress sm = true ∨ is_success sm = true).
Proof.
  unfold any_active. rewrite existsb_exists. split.
  - intros (sm & Hin & Hact).
    apply list_elem_of_In, list_elem_of_fmap in Hin as ([mac sm'] & -> & Hin).
    apply elem_of_map_to_list in Hin. apply orb_true_iff in Hact. eauto.
  - intros (mac & sm & Hsm & Hact). exists sm. split.
    + apply list_elem_of_In, list_elem_of_fmap. exists (mac, sm).
      split; [done|]. by apply elem_of_map_to_list.
    + by apply orb_true_iff.
Qed.

Lemma any_active_false (machines : gmap string SM) :
  any_active machines = false
  ↔ ∀ mac sm, machines !! mac = Some sm
              → is_in_progress sm = false ∧ is_success sm = false.
Proof.
  rewrite <- not_true_iff_false, any_active_true. split.
  - intros Hno mac sm Hsm.
    destruct (is_in_progress sm) eqn:?, (is_success sm) eqn:?; try done;
      exfalso; apply Hno; eauto.
  - intros Hall (mac & sm & Hsm & Hact).
    destruct (Hall mac sm Hsm) as [Hp Hs]. rewrite Hp, Hs in Hact.
    by destruct Hact.
Qed.

(** A port is open for a preemptive request when it is up and none of
    its machines is in progress or authenticated. *)
Lemma port_status_up port_id s :
  default false (port_status s !! port_id) = true
  ↔ port_status s !! port_id = Some true.
Proof. destruct (port_status s !! port_id) as [[]|]; naive_solver. Qed.

Lemma preemptive_timer_fires fuel port_id s :
  ∃ s2,
    send_preemptive_identity_request_if_no_active_on_port fuel port_id s
    = Some s2
    ∧ port_to_identity_job s2
      = <[port_id := length (timer_scheduler s)]> (port_to_identity_job s)
    ∧ timer_scheduler s2
      = timer_scheduler s
          ++ [TimerScheduler.mkJob DEFAULT_PREEMPTIVE_IDENTITY_REQUEST_INTERVAL
                (TimerScheduler.send_preemptive_identity_request_if_no_active_on_port_cb
                   port_id) false]
    ∧ port_status s2 = port_status s
    ∧ state_machines s2 = state_machines s
    ∧ running s2 = running s
    ∧ ((port_status s !! port_id = Some true
        ∧ (∀ mac sm, lookup_machine port_id mac s = Some sm
                     → is_in_progress sm = false ∧ is_success sm = false)
        ∧ eap_output_messages s2
          = eap_output_messages s
              ++ [mkEapQueueMessage
                    (OutIdentity
                       (mkIdentityMessage PAE_GROUP_ADDRESS
                          (random_ids s (drawn s)) Eap_REQUEST ""))
                    PAE_GROUP_ADDRESS port_id]
        ∧ port_to_eapol_id s2
          = <[port_id := random_ids s (drawn s)]> (port_to_eapol_id s))
       ∨ (¬ (port_status s !! port_id = Some true
             ∧ ∀ mac sm, lookup_machine port_id mac s = Some sm
                         → is_in_progress sm = false ∧ is_success sm = false)
          ∧ eap_output_messages s2 = eap_output_messages s
          ∧ port_to_eapol_id s2 = port_to_eapol_id s
          ∧ drawn s2 = drawn s)).
Proof.
  unfold send_preemptive_identity_request_if_no_active_on_port. cbn.
  destruct (default false (port_status s !! port_id)) eqn:Hup; cbn.
  - apply port_status_up in Hup.
    destruct (any_active (default ∅ (state_machines s !! port_id))) eqn:Hact.
    + eexists. split; [done|]. repeat split. right. repeat split.
      intros [_ Hidle]. apply any_active_false in Hidle. congruence.
    + eexists. split; [done|]. repeat split. left.
      split; [done|]. split; [|done].
      intros mac sm Hsm. by apply (proj1 (any_active_false _) Hact mac sm).
  - eexists. split; [done|]. repeat split. right. repeat split.
    intros [Hst _]. apply port_status_up in Hst. congruence.
Qed.

(** C6.  [port_up(P)] marks P up and registers the preemptive check
    with a delay of 20 seconds.  Whenever the check fires it registers
    itself again with a delay of 60 seconds, and it puts an Identity
    Request from the PAE group address on the EAP queue, recording the
    id in [port_to_eapol_id], exactly when P is up and no machine on P
    is in progress or authenticated. *)
Theorem port_up_schedules_preemptive_request (fuel : nat)
    (port_id : string) s :
  let check :=
    TimerScheduler.send_preemptive_identity_request_if_no_active_on_port_cb
      port_id in
  port_status (port_up port_id s) !! port_id = Some true
  ∧ (∃ job, port_to_identity_job (port_up port_id s) !! port_id = Some job
            ∧ timer_scheduler (port_up port_id s) !! job
              = Some (TimerScheduler.mkJob 20 check false))
  ∧ ∀ s1 : t SM,
      ∃ s2 job,
        send_preemptive_identity_request_if_no_active_on_port fuel port_id s1
        = Some s2
        ∧ port_to_identity_job s2 !! port_id = Some job
        ∧ timer_scheduler s1 !! job = None
        ∧ timer_scheduler s2 !! job = Some (TimerScheduler.mkJob 60 check false)
        ∧ ((port_status s1 !! port_id = Some true
            ∧ (∀ mac sm, lookup_machine port_id mac s1 = Some sm
                         → is_in_progress sm = false ∧ is_success sm = false)
            ∧ ∃ _id,
                eap_output_messages s2
                = eap_output_messages s1
                    ++ [mkEapQueueMessage
                          (OutIdentity
                             (mkIdentityMessage PAE_GROUP_ADDRESS _id
                                Eap_REQUEST ""))
                          PAE_GROUP_ADDRESS port_id]
                ∧ port_to_eapol_id s2 = <[port_id := _id]> (port_to_eapol_id s1))
           ∨ (¬ (port_status s1 !! port_id = Some true
                 ∧ ∀ mac sm, lookup_machine port_id mac s1 = Some sm
                             → is_in_progress sm = false
                               ∧ is_success sm = false)
              ∧ eap_output_messages s2 = eap_output_messages s1
              ∧ port_to_eapol_id s2 = port_to_eapol_id s1)).
Proof.
  intros check. split; [|split].
  - unfold port_up. cbn.
    destruct (set_port_status_ports port_id true s) as (-> & _).
    apply lookup_insert_eq.
  - unfold port_up. cbn. eexists. split; [apply lookup_insert_eq|].
    rewrite lookup_app_r by done. by rewrite Nat.sub_diag.
  - intros s1.
    destruct (preemptive_timer_fires fuel port_id s1)
      as (s2 & Hfire & Hjob & Hts & _ & _ & _ & Hcases).
    exists s2, (length (timer_scheduler s1)). split; [done|].
    rewrite Hjob, Hts. split; [apply lookup_insert_eq|].
    split; [by apply lookup_ge_None|].
    split; [rewrite lookup_app_r by done; by rewrite Nat.sub_diag|].
    destruct Hcases as [(Hup & Hidle & Hq & Hid)|(Hno & Hq & Hid & _)].
    + left. eauto 10.
    + right. eauto.
Qed.

(** *** get_state_machine *)

(** The machine [get_state_machine] creates when it finds none. *)
Lemma lookup_machine_empty_table port_id q m s :
  state_machines s !! port_id = None
  → lookup_machine q m
      (set_state_machines (<[port_id := ∅]> (state_machines s)) s)
    = lookup_machine q m s.
Proof.
  intros Hnone. unfold lookup_machine. cbn.
  destruct (decide (q = port_id)) as [->|Hq].
  - by rewrite lookup_insert_eq, Hnone.
  - by rewrite lookup_insert_ne.
Qed.

Lemma get_state_machine_existing src_mac port_id message_id s sm :
  lookup_machine port_id src_mac s = Some sm
  → get_state_machine src_mac port_id message_id s = (sm, s).
Proof.
  intros Hsm. unfold get_state_machine.
  destruct (lookup_machine_Some_port _ _ _ _ Hsm) as [tbl ->].
  by rewrite Hsm.
Qed.

Lemma get_state_machine_new src_mac port_id message_id s :
  lookup_machine port_id src_mac s = None
  → let sm :=
      if message_id =? -2
      then MacAuthenticationBypassStateMachine src_mac port_id
      else FullEAPStateMachine src_mac port_id in
    (get_state_machine src_mac port_id message_id s).1 = sm
    ∧ ∀ q m,
        lookup_machine q m (get_state_machine src_mac port_id message_id s).2
        = if decide (q = port_id ∧ m = src_mac) then Some sm
          else lookup_machine q m s.
Proof.
  intros Hnone sm. unfold get_state_machine.
  set (s1 := match state_machines s !! port_id with
             | Some _ => s
             | None => set_state_machines (<[port_id:=∅]> (state_machines s)) s
             end).
  assert (∀ q m, lookup_machine q m s1 = lookup_machine q m s) as Hs1.
  { intros q m. subst s1.
    destruct (state_machines s !! port_id) eqn:Hp; [done|].
    by apply lookup_machine_empty_table. }
  rewrite Hs1, Hnone. subst sm.
  destruct (message_id =? -2); cbn; (split; [done|]); intros q m;
    rewrite lookup_machine_store; by rewrite Hs1.
Qed.

(** What [get_state_machine] leaves alone: everything but the table
    of machines. *)
Lemma get_state_machine_others src_mac port_id message_id s :
  let s' := (get_state_machine src_mac port_id message_id s).2 in
  same_ports s s'
  ∧ port_to_identity_job s' = port_to_identity_job s
  ∧ timer_scheduler s' = timer_scheduler s
  ∧ eap_output_messages s' = eap_output_messages s
  ∧ event_log s' = event_log s.
Proof.
  unfold get_state_machine.
  destruct (state_machines s !! port_id); cbn;
    repeat case_match; cbn; by repeat split.
Qed.

(** C7.  [get_state_machine(m, P, k)] returns the machine stored for
    (P, m) when there is one, whatever [k] is, and changes nothing;
    when there is none it stores a new machine for (P, m) (a MAB
    machine for [k = -2], an EAP machine otherwise) and touches no
    other session; a second call, with any message id, returns the
    same machine and changes nothing. *)
Theorem get_state_machine_idempotent (src_mac port_id : string)
    (k k' : Z) s :
  let r := get_state_machine src_mac port_id k s in
  match lookup_machine port_id src_mac s with
  | Some sm => r = (sm, s)
  | None =>
      r.1 = (if k =? -2
             then MacAuthenticationBypassStateMachine src_mac port_id
             else FullEAPStateMachine src_mac port_id)
      ∧ lookup_machine port_id src_mac r.2 = Some r.1
      ∧ ∀ q m, ¬ (q = port_id ∧ m = src_mac)
               → lookup_machine q m r.2 = lookup_machine q m s
  end
  ∧ get_state_machine src_mac port_id k' r.2 = r.
Proof.
  intros r. subst r.
  destruct (lookup_machine port_id src_mac s) as [sm|] eqn:Hsm.
  - rewrite (get_state_machine_existing _ _ k _ sm Hsm). cbn.
    split; [done|]. by apply get_state_machine_existing.
  - destruct (get_state_machine_new src_mac port_id k s Hsm) as [Hfst Hlk].
    assert (lookup_machine port_id src_mac
              (get_state_machine src_mac port_id k s).2
            = Some (get_state_machine src_mac port_id k s).1) as Hstored.
    { rewrite Hlk, decide_True by done. by rewrite Hfst. }
    split; [split; [done|split; [done|]]|].
    + intros q m Hne. by rewrite Hlk, decide_False.
    + rewrite (get_state_machine_existing _ _ k' _ _ Hstored).
      by destruct (get_state_machine src_mac port_id k s).
Qed.

(** *** reauth_port *)

(** The id the busy loop ends with is not [cur]. *)
Lemma redraw_distinct fuel cur _id s r :
  redraw fuel cur _id s = Some r → r.1 ≠ cur.
Proof.
  revert _id s. induction fuel as [|fuel IH]; intros _id s; cbn.
  - destruct (_id =? cur) eqn:Heq; [done|].
    intros [= <-]. by apply Z.eqb_neq.
  - destruct (_id =? cur) eqn:Heq; [apply IH|].
    intros [= <-]. by apply Z.eqb_neq.
Qed.

(** The loop only consumes draws. *)
Lemma redraw_only_draws fuel cur _id s r :
  redraw fuel cur _id s = Some r
  → ∃ n, r.2 = set_drawn n s.
Proof.
  revert _id s. induction fuel as [|fuel IH]; intros _id s; cbn.
  - destruct (_id =? cur); [done|]. intros [= <-]. exists (drawn s).
    by destruct s.
  - destruct (_id =? cur).
    + intros Hr. destruct (IH _ _ Hr) as [n ->]. by exists n.
    + intros [= <-]. exists (drawn s). by destruct s.
Qed.

(** The loop ends as soon as the source offers an id other than
    [cur], given fuel for the draws before it. *)
Lemma redraw_finds (s : t SM) cur k :
  ∀ fuel n,
    (k ≤ fuel)%nat → random_ids s (n + k)%nat ≠ cur
    → ∃ k', redraw fuel cur (random_ids s n) (set_drawn (S n) s)
            = Some (random_ids s (n + k')%nat, set_drawn (S (n + k')) s).
Proof.
  induction k as [|k IH]; intros fuel n Hfuel Hne.
  - exists 0%nat. rewrite Nat.add_0_r in *.
    apply Z.eqb_neq in Hne. destruct fuel; cbn; by rewrite Hne.
  - destruct (random_ids s n =? cur) eqn:Heq.
    + destruct fuel as [|fuel]; [lia|]. cbn. rewrite Heq.
      destruct (IH fuel (S n)) as [k' Hk']; [lia|by rewrite Nat.add_succ_comm|].
      exists (S k'). rewrite <- Nat.add_succ_comm. exact Hk'.
    + exists 0%nat. rewrite Nat.add_0_r. destruct fuel; cbn; by rewrite Heq.
Qed.

(** What a successful [send_preemptive_identity_request] did. *)
Lemma send_preemptive_identity_request_sent fuel port_id osm s s' :
  send_preemptive_identity_request fuel port_id osm s = Some s'
  → ∃ _id n,
      s' = set_eap_output_messages
             (eap_output_messages s
                ++ [mkEapQueueMessage
                      (OutIdentity
                         (mkIdentityMessage PAE_GROUP_ADDRESS _id
                            Eap_REQUEST ""))
                      PAE_GROUP_ADDRESS port_id])
             (set_port_to_eapol_id (<[port_id := _id]> (port_to_eapol_id s))
                (set_drawn n s))
      ∧ osm ≫= current_id ≠ Some _id.
Proof.
  unfold send_preemptive_identity_request. cbn.
  destruct (osm ≫= current_id) as [cur|] eqn:Hcur; cbn.
  - destruct (redraw fuel cur (random_ids s (drawn s))
                (set_drawn (S (drawn s)) s)) as [[_id s1]|] eqn:Hr; [|done].
    cbn. intros [= <-].
    pose proof (redraw_distinct _ _ _ _ _ Hr) as Hne.
    destruct (redraw_only_draws _ _ _ _ _ Hr) as [n Hn]. cbn in Hne, Hn.
    subst s1. exists _id, n. split; [done|]. congruence.
  - intros [= <-]. by exists (random_ids s (drawn s)), (S (drawn s)).
Qed.

Lemma reauth_port_idle fuel src_mac port_id s :
  (∀ sm, lookup_machine port_id src_mac s = Some sm → is_success sm = false)
  → reauth_port fuel src_mac port_id s = Some s.
Proof.
  intros Hno. unfold reauth_port.
  destruct (lookup_machine port_id src_mac s) as [sm|]; [|done].
  by rewrite (Hno sm).
Qed.

(** C10.  [reauth_port(m, P)] with no machine for (P, m), or with one
    that does not report success, returns with the dispatcher exactly
    as it was.  With a machine that reports success it puts one
    Identity Request on the EAP queue and records its id for P, the
    tables of machines and of port statuses staying as they are, as
    soon as the random source offers an id other than the machine's
    [current_id] within the draws allowed.  It enqueues in no other
    case. *)
Theorem reauth_port_emits_iff_success (fuel : nat)
    (src_mac port_id : string) s :
  ((∀ sm, lookup_machine port_id src_mac s = Some sm → is_success sm = false)
   → reauth_port fuel src_mac port_id s = Some s)
  ∧ (∀ sm k,
       lookup_machine port_id src_mac s = Some sm
       → is_success sm = true
       → (k ≤ fuel)%nat
       → current_id sm ≠ Some (random_ids s (drawn s + k)%nat)
       → ∃ s' _id,
           reauth_port fuel src_mac port_id s = Some s'
           ∧ eap_output_messages s'
             = eap_output_messages s
                 ++ [mkEapQueueMessage
                       (OutIdentity
                          (mkIdentityMessage PAE_GROUP_ADDRESS _id
                             Eap_REQUEST ""))
                       PAE_GROUP_ADDRESS port_id]
           ∧ port_to_eapol_id s' = <[port_id := _id]> (port_to_eapol_id s)
           ∧ state_machines s' = state_machines s
           ∧ port_status s' = port_status s)
  ∧ (∀ s',
       reauth_port fuel src_mac port_id s = Some s'
       → eap_output_messages s' ≠ eap_output_messages s
       → ∃ sm, lookup_machine port_id src_mac s = Some sm
               ∧ is_success sm = true).
Proof.
  split; [apply reauth_port_idle|split].
  - intros sm k Hsm Hok Hfuel Hne. unfold reauth_port. rewrite Hsm, Hok.
    unfold send_preemptive_identity_request. cbn.
    destruct (current_id sm) as [cur|] eqn:Hcur; cbn.
    + destruct (redraw_finds s cur k fuel (drawn s) Hfuel) as [k' Hk'];
        [congruence|].
      rewrite Hk'. cbn. by eexists _, _.
    + by eexists _, _.
  - intros s' Hre Hq. unfold reauth_port in Hre.
    destruct (lookup_machine port_id src_mac s) as [sm|]; [|congruence].
    destruct (is_success sm) eqn:Hok; [eauto|congruence].
Qed.

(** C2, as the code has it.  The id of a request sent by
    [reauth_port] differs from the [current_id] of the machine being
    re-authenticated, the one stored for (P, m); the request sent by
    the preemptive check is compared with no machine, and is sent only
    when no machine on the port is in progress or authenticated.  In
    both cases the id put in the message is the id recorded for the
    port. *)
Theorem preemptive_id_differs_from_reauthenticated_session (fuel : nat)
    (port_id : string) s :
  (∀ src_mac sm s',
     lookup_machine port_id src_mac s = Some sm
     → is_success sm = true
     → reauth_port fuel src_mac port_id s = Some s'
     → ∃ _id,
         current_id sm ≠ Some _id
         ∧ port_to_eapol_id s' !! port_id = Some _id
         ∧ eap_output_messages s'
           = eap_output_messages s
               ++ [mkEapQueueMessage
                     (OutIdentity
                        (mkIdentityMessage PAE_GROUP_ADDRESS _id
                           Eap_REQUEST ""))
                     PAE_GROUP_ADDRESS port_id])
  ∧ (∀ s',
       send_preemptive_identity_request_if_no_active_on_port fuel port_id s
       = Some s'
       → eap_output_messages s' ≠ eap_output_messages s
       → (∀ mac sm, lookup_machine port_id mac s = Some sm
                    → is_in_progress sm = false ∧ is_success sm = false)
         ∧ ∃ _id,
             port_to_eapol_id s' !! port_id = Some _id
             ∧ eap_output_messages s'
               = eap_output_messages s
                   ++ [mkEapQueueMessage
                         (OutIdentity
                            (mkIdentityMessage PAE_GROUP_ADDRESS _id
                               Eap_REQUEST ""))
                         PAE_GROUP_ADDRESS port_id]).
Proof.
  split.
  - intros src_mac sm s' Hsm Hok. unfold reauth_port. rewrite Hsm, Hok.
    intros Hsent.
    destruct (send_preemptive_identity_request_sent _ _ _ _ _ Hsent)
      as (_id & n & -> & Hne).
    exists _id. cbn. split; [exact Hne|]. split; [apply lookup_insert_eq|done].
  - intros s' Hfire Hq.
    destruct (preemptive_timer_fires fuel port_id s)
      as (s2 & Hfire' & _ & _ & _ & _ & _ & Hcases).
    rewrite Hfire in Hfire'. injection Hfire' as <-.
    destruct Hcases as [(_ & Hidle & Hout & Hid)|(_ & Hout & _)]; [|done].
    split; [exact Hidle|]. eexists. split; [|exact Hout].
    rewrite Hid. apply lookup_insert_eq.
Qed.

(** *** send_eap_to_state_machine *)

Lemma perform_all_event_log acts s :
  event_log (perform_all acts s) = event_log s.
Proof.
  revert s. induction acts as [|a acts IH]; intros s; [done|].
  rewrite perform_all_cons, IH.
  destruct a; cbn; unfold auth_success, auth_failure, auth_logoff;
    repeat case_match; done.
Qed.

Lemma deliver_event_log port_id src_mac ev s sm :
  lookup_machine port_id src_mac s = Some sm
  → event_log (deliver port_id src_mac ev s)
    = event_log s ++ [(port_id, src_mac, ev)].
Proof.
  intros Hsm. unfold deliver. rewrite Hsm.
  destruct (event ev sm) as [sm' acts]. by rewrite perform_all_event_log.
Qed.

Lemma get_state_machine_lookup src_mac port_id message_id s :
  lookup_machine port_id src_mac
    (get_state_machine src_mac port_id message_id s).2
  = Some (get_state_machine src_mac port_id message_id s).1
  ∧ ∀ q m, ¬ (q = port_id ∧ m = src_mac)
           → lookup_machine q m
               (get_state_machine src_mac port_id message_id s).2
             = lookup_machine q m s.
Proof.
  destruct (lookup_machine port_id src_mac s) as [sm|] eqn:Hsm.
  - by rewrite (get_state_machine_existing _ _ _ _ sm Hsm).
  - destruct (get_state_machine_new src_mac port_id message_id s Hsm)
      as [Hfst Hlk].
    split.
    + rewrite Hlk, decide_True by done. by rewrite Hfst.
    + intros q m Hne. by rewrite Hlk, decide_False.
Qed.

(** C5, as the code has it.  While [running] is false the message is
    dropped.  While it is true, a message whose id, if it has one, is
    a byte reaches the machine stored for (P, source MAC), created as
    an EAP machine if there was none, and no other session changes;
    what is delivered is the preemptive-response event when the
    message has an id and that id is the one recorded for P, and the
    plain message event otherwise. *)
Theorem send_eap_to_state_machine_routes (eap : EapMessage)
    (port_id : string) s :
  let src_mac := eap_src_mac eap in
  let message_id := default (-1) (eap_message_id eap) in
  let sm0 :=
    default (FullEAPStateMachine src_mac port_id)
      (lookup_machine port_id src_mac s) in
  let ev :=
    if bool_decide (message_id ≠ -1
                    ∧ port_to_eapol_id s !! port_id = Some message_id)
    then EventPreemptiveEAPResponseMessageReceived (MsgEap eap) port_id
           message_id
    else EventMessageReceived (MsgEap eap) port_id in
  let s' := send_eap_to_state_machine eap port_id s in
  (running s = false → s' = s)
  ∧ (running s = true
     → (∀ m, eap_message_id eap = Some m → 0 ≤ m ≤ 255)
     → event_log s' = event_log s ++ [(port_id, src_mac, ev)]
       ∧ lookup_machine port_id src_mac s' = Some (event ev sm0).1
       ∧ ∀ q m, ¬ (q = port_id ∧ m = src_mac)
                → lookup_machine q m s' = lookup_machine q m s).
Proof.
  intros src_mac message_id sm0 ev s'. subst s'.
  unfold send_eap_to_state_machine. fold src_mac message_id.
  split; [by intros ->|]. intros -> Hbyte. cbn.
  assert (message_id ≠ -2) as Hk.
  { subst message_id. destruct (eap_message_id eap) as [m|]; cbn; [|lia].
    specialize (Hbyte m eq_refl). lia. }
  destruct (get_state_machine_lookup src_mac port_id message_id s)
    as [Hstored Hother].
  destruct (get_state_machine_others src_mac port_id message_id s)
    as ((_ & Hid & _) & _ & _ & _ & Hlog).
  assert ((get_state_machine src_mac port_id message_id s).1 = sm0) as Hsm0.
  { subst sm0. destruct (lookup_machine port_id src_mac s) as [sm|] eqn:Hsm.
    - by rewrite (get_state_machine_existing _ _ _ _ sm Hsm).
    - destruct (get_state_machine_new src_mac port_id message_id s Hsm)
        as [-> _].
      by rewrite (proj2 (Z.eqb_neq _ _) Hk). }
  destruct (get_state_machine src_mac port_id message_id s) as [sm s1].
  cbn in Hstored, Hother, Hid, Hlog, Hsm0. subst sm. rewrite Hid.
  match goal with |- context [deliver _ _ ?e s1] =>
    assert (e = ev) as ->
  end.
  { subst ev. destruct (port_to_eapol_id s !! port_id) as [p|] eqn:Hp; cbn.
    - destruct (decide (message_id = -1)) as [Hm|Hm].
      + rewrite Hm. cbn. rewrite bool_decide_eq_false_2; [done|].
        by intros [? _].
      + rewrite (proj2 (Z.eqb_neq _ _) Hm). cbn.
        destruct (decide (message_id = p)) as [<-|Hne].
        * by rewrite Z.eqb_refl, bool_decide_eq_true_2.
        * rewrite (proj2 (Z.eqb_neq _ _) Hne).
          rewrite bool_decide_eq_false_2; [done|]. intros [_ [= ?]]. done.
    - rewrite (proj2 (Z.eqb_neq _ _) Hk), andb_false_r.
      rewrite bool_decide_eq_false_2; [done|]. by intros [_ ?]. }
  split; [|split].
  - by rewrite (deliver_event_log _ _ _ _ _ Hstored), Hlog.
  - rewrite deliver_lookup_machine, decide_True by done. by rewrite Hstored.
  - intros q m Hne. rewrite deliver_lookup_machine, decide_False by done.
    by apply Hother.
Qed.

(** *** Sequences of inputs *)

Lemma run_invariant (fuel : nat) (I : t SM → Prop) (ok : Input → Prop) :
  (∀ i s s', ok i → I s → step fuel i s = Some s' → I s')
  → ∀ inputs s s',
      Forall ok inputs → I s → run fuel inputs s = Some s' → I s'.
Proof.
  intros Hstep inputs. induction inputs as [|i inputs IH]; intros s s' Hok Hs.
  - cbn. by intros [= <-].
  - cbn. destruct (step fuel i s) as [s1|] eqn:Hs1; cbn; [|done].
    inversion Hok as [|?? Hi Hrest]; subst. eauto.
Qed.








End DispatcherFacts.

(** ** The sockets' [close] and the receive loops *)

Section LoopFacts.
Context {SM : Type} `{!StateMachine SM} `{!Parsers}.
Implicit Type s : Chewie.t SM.
Import Chewie NfvSockets.

Lemma close_returns env sock :
  EapSocket.close env sock
  = Ok (EapSocket.mk None,
        match EapSocket.socket sock with
        | Some fd => [EapSocket.SysShutdown fd; EapSocket.SysClose fd]
        | None => []
        end).
Proof.
  destruct sock as [[fd|]]; unfold EapSocket.close; cbn; [|done].
  by destruct env as [[?|] [?|]].
Qed.

Lemma close_closed env sock :
  EapSocket.socket sock = None → EapSocket.close env sock = Ok (sock, []).
Proof. intros Hnone. unfold EapSocket.close. by rewrite Hnone. Qed.

Lemma set_eap_socket_same s o : eap_socket s = o → set_eap_socket o s = s.
Proof. intros <-. by destruct s. Qed.

(** C9.  [EapSocket.close] returns with the [socket] attribute
    [None], whatever the kernel answers to [shutdown] and [close], the
    descriptor of an open socket having been shut down and closed; on
    a socket already closed it returns at once, having made no system
    call; and [receive_eap_messages], finding no socket, leaves its
    loop at the first test and returns without a single [sock_recv]. *)
Theorem eap_socket_close_stops_receive_loop :
  (∀ env sock,
     ∃ sock' calls,
       EapSocket.close env sock = Ok (sock', calls)
       ∧ EapSocket.socket sock' = None
       ∧ (∀ fd, EapSocket.socket sock = Some fd
                → calls = [EapSocket.SysShutdown fd; EapSocket.SysClose fd])
       ∧ ∀ env', EapSocket.close env' sock' = Ok (sock', []))
  ∧ (∀ env tk ticks incoming s,
       eap_socket s ≫= EapSocket.socket = None
       → receive_eap_messages env (tk :: ticks) incoming s
         = ([], Returns, set_running (eap_running tk) s)).
Proof.
  split.
  - intros env sock. eexists _, _. split; [apply close_returns|].
    split; [done|]. split; [by intros fd ->|].
    intros env'. by apply close_closed.
  - intros env tk ticks incoming s Hnone.
    unfold receive_eap_messages.
    assert (eap_while (tk :: ticks) incoming s
            = ([], Returns, set_running (eap_running tk) s)) as ->.
    { cbn. destruct (eap_running tk); cbn; [|done].
      destruct (eap_socket s) as [sock|]; [|done]. cbn in Hnone.
      by rewrite Hnone. }
    unfold eap_finally. cbn.
    destruct (eap_socket s) as [sock|] eqn:Hsock; cbn; [|done].
    cbn in Hnone. rewrite (close_closed env sock Hnone). cbn.
    f_equal. destruct s; cbn in *. by rewrite Hsock.
Qed.

Lemma and_then_end acts (r : list LoopAct * LoopEnd * t SM) :
  (and_then acts r).1.2 = r.1.2.
Proof. by destruct r as [[??]?]. Qed.

(** An exception that leaves [receive_mab_messages] was delivered at
    one of its two sleeps. *)
Lemma receive_mab_messages_escapes ticks incoming s e :
  (receive_mab_messages ticks incoming s).1.2 = Escapes e
  → ∃ tk, tk ∈ ticks ∧ (mab_sleep0 tk = Some e ∨ mab_sleep2 tk = Some e).
Proof.
  revert incoming s. induction ticks as [|tk ticks IH]; intros incoming s.
  - done.
  - cbn [receive_mab_messages].
    destruct (negb (running (set_running (mab_running tk) s))); [done|].
    destruct (mab_sleep0 tk) as [e0|] eqn:H0.
    { cbn. intros [= ->]. exists tk. split; [by left|by left]. }
    rewrite and_then_end.
    destruct (mab_try incoming (set_running (mab_running tk) s))
      as [[[[pkt s1]|e1] rest]|]; [| |done].
    + rewrite and_then_end. intros Hesc.
      destruct (IH _ _ Hesc) as (tk' & Hin & Hs). exists tk'.
      split; [by right|done].
    + cbn [any_exception].
      destruct (mab_sleep2 tk) as [e2|] eqn:H2.
      { cbn. intros [= ->]. exists tk. split; [by left|by right]. }
      rewrite and_then_end. intros Hesc.
      destruct (IH _ _ Hesc) as (tk' & Hin & Hs). exists tk'.
      split; [by right|done].
Qed.

(** C8.  Whatever the receive or the handling of a MAB frame raises is
    caught: the loop sleeps 2 seconds, logs the error if it is still
    running, and goes back to the loop test; with both sleeps left
    undisturbed no exception leaves [receive_mab_messages]. *)
Theorem receive_mab_messages_catches_everything
    (ticks : list MabTick) (incoming : list SockEvent) s :
  (∀ tk rest e,
     mab_running tk = true
     → mab_sleep0 tk = None
     → mab_sleep2 tk = None
     → mab_try incoming (set_running true s) = Some (Raise e, rest)
     → receive_mab_messages (tk :: ticks) incoming s
       = and_then
           ([Slept 0; Slept 2]
              ++ if mab_running_after tk then [LoggedError] else [])
           (receive_mab_messages ticks rest
              (set_running (mab_running_after tk) s)))
  ∧ ((∀ tk, tk ∈ ticks → mab_sleep0 tk = None ∧ mab_sleep2 tk = None)
     → ∀ e, (receive_mab_messages ticks incoming s).1.2 ≠ Escapes e).
Proof.
  split.
  - intros tk rest e Hrun H0 H2 Htry. cbn [receive_mab_messages].
    rewrite Hrun, H0, H2. cbn [negb running set_running].
    rewrite Htry. cbn [any_exception].
    destruct (receive_mab_messages ticks rest
                (set_running (mab_running_after tk) s))
      as [[acts end_] s1] eqn:Hloop.
    replace (set_running (mab_running_after tk) (set_running true s))
      with (set_running (mab_running_after tk) s) by done.
    rewrite Hloop. cbn. by destruct (mab_running_after tk).
  - intros Hcalm e Hesc.
    destruct (receive_mab_messages_escapes _ _ _ _ Hesc) as (tk & Hin & Hs).
    destruct (Hcalm tk Hin) as [H0 H2]. destruct Hs; congruence.
Qed.

End LoopFacts.

(** ** The properties on concrete inputs *)

Section Scenarios.
Import Chewie NfvSockets Scenario.

Lemma session_quiet (ev : Event) (sm : Session) :
  no_auth_success (event ev sm).2.
Proof. intros src_mac port_id period Hin. by apply elem_of_nil in Hin. Qed.


(** C2 as stated fails when another supplicant on the port is in
    progress: re-authenticating the first client draws 7, which is not
    its own [current_id] 5 and is accepted, while the second client's
    authentication in progress has [current_id] 7. *)
Lemma reauth_id_collides_with_other_session :
  ¬ (∀ s' _id mac sm,
       reauth_port 0 client1 port1 two_sessions = Some s'
       → port_to_eapol_id s' !! port1 = Some _id
       → lookup_machine port1 mac two_sessions = Some sm
       → is_in_progress sm = true
       → current_id sm ≠ Some _id).
Proof.
  intros Hclaim.
  destruct (reauth_port 0 client1 port1 two_sessions) as [s'|] eqn:Hre;
    [|vm_compute in Hre; discriminate Hre].
  apply (Hclaim s' 7 client2 authenticating eq_refl);
    [|vm_compute; reflexivity|reflexivity|reflexivity].
  vm_compute in Hre. injection Hre as <-. vm_compute. reflexivity.
Qed.

Lemma preemptive_id_differs_from_reauthenticated_session_witness :
  lookup_machine port1 client1 two_sessions = Some authenticated
  ∧ is_success authenticated = true
  ∧ ∃ s' _id,
      reauth_port 0 client1 port1 two_sessions = Some s'
      ∧ current_id authenticated ≠ Some _id
      ∧ port_to_eapol_id s' !! port1 = Some _id.
Proof.
  assert (lookup_machine port1 client1 two_sessions = Some authenticated)
    as Hsm by (vm_compute; reflexivity).
  split; [exact Hsm|]. split; [reflexivity|].
  destruct (reauth_port 0 client1 port1 two_sessions) as [s'|] eqn:Hre;
    [|vm_compute in Hre; discriminate Hre].
  destruct (preemptive_id_differs_from_reauthenticated_session 0 port1
              two_sessions) as [Hreauth _].
  destruct (Hreauth client1 authenticated s' Hsm eq_refl Hre)
    as (_id & Hne & Hid & _).
  exists s', _id. split; [reflexivity|]. split; [exact Hne|exact Hid].
Defined.

Lemma port_down_clears_port_witness :
  (∀ sm : Session, no_auth_success (event (EventPortStatusChange false) sm).2)
  ∧ state_machines (port_down port1 (port_up port1 two_sessions)) !! port1
    = None
  ∧ port_to_identity_job (port_down port1 (port_up port1 two_sessions))
    = port_to_identity_job (port_up port1 two_sessions).
Proof.
  split; [apply session_quiet|].
  destruct (port_down_clears_port port1 (port_up port1 two_sessions))
    as (Hsm & _ & _ & _ & _ & Hjobs).
  split; [exact Hsm|]. apply Hjobs, session_quiet.
Defined.

(** C5 as stated fails once [stop()] has cleared [running]: the
    message is dropped, no event reaches any machine. *)
Lemma stopped_dispatcher_delivers_nothing :
  ¬ (∃ ev,
       event_log (send_eap_to_state_machine response7 port1 stopped)
       = event_log stopped ++ [(port1, client1, ev)]).
Proof. intros [ev Hev]. vm_compute in Hev. discriminate Hev. Qed.

Lemma send_eap_to_state_machine_routes_witness :
  running awaiting_reply = true
  ∧ (∀ m, eap_message_id response7 = Some m → 0 ≤ m ≤ 255)
  ∧ event_log (send_eap_to_state_machine response7 port1 awaiting_reply)
    = [(port1, client1,
        EventPreemptiveEAPResponseMessageReceived (MsgEap response7) port1 7)].
Proof.
  assert (running awaiting_reply = true) as Hrun by (vm_compute; reflexivity).
  assert (∀ m, eap_message_id response7 = Some m → 0 ≤ m ≤ 255) as Hbyte.
  { intros m [= <-]. lia. }
  split; [exact Hrun|]. split; [exact Hbyte|].
  destruct (send_eap_to_state_machine_routes response7 port1 awaiting_reply)
    as [_ Hroutes].
  destruct (Hroutes Hrun Hbyte) as [Hlog _].
  rewrite Hlog. vm_compute. reflexivity.
Defined.

Lemma port_up_schedules_preemptive_request_witness :
  port_status (port_up port1 fresh) !! port1 = Some true
  ∧ ∃ s2 job,
      send_preemptive_identity_request_if_no_active_on_port 0 port1
        (port_up port1 fresh) = Some s2
      ∧ port_to_identity_job s2 !! port1 = Some job
      ∧ timer_scheduler s2 !! job
        = Some (TimerScheduler.mkJob 60
                  (TimerScheduler.send_preemptive_identity_request_if_no_active_on_port_cb
                     port1) false).
Proof.
  destruct (port_up_schedules_preemptive_request 0 port1 fresh)
    as (Hup & _ & Hfire).
  split; [exact Hup|].
  destruct (Hfire (port_up port1 fresh))
    as (s2 & job & Hs2 & Hjob & _ & Hts & _).
  exists s2, job. split; [exact Hs2|]. split; [exact Hjob|exact Hts].
Defined.

Lemma get_state_machine_idempotent_witness :
  lookup_machine port1 client1 fresh = None
  ∧ get_state_machine client1 port1 (-2)
      (get_state_machine client1 port1 7 fresh).2
    = get_state_machine client1 port1 7 fresh.
Proof.
  split; [vm_compute; reflexivity|].
  destruct (get_state_machine_idempotent client1 port1 7 (-2) fresh)
    as [_ Hsame].
  exact Hsame.
Defined.

Lemma receive_mab_messages_catches_everything_witness :
  mab_try [SockData truncated_udp_frame; SockData dhcp_frame]
    (set_running true fresh)
  = Some (Raise StructError, [SockData dhcp_frame])
  ∧ (receive_mab_messages one_round
       [SockData truncated_udp_frame; SockData dhcp_frame] fresh).1
    = ([Slept 0; Slept 2; LoggedError], Returns)
  ∧ ∀ e,
      (receive_mab_messages one_round
         [SockData truncated_udp_frame; SockData dhcp_frame] fresh).1.2
      ≠ Escapes e.
Proof.
  assert (mab_try [SockData truncated_udp_frame; SockData dhcp_frame]
            (set_running true fresh)
          = Some (Raise StructError, [SockData dhcp_frame])) as Htry
    by reflexivity.
  split; [exact Htry|]. split.
  - destruct (receive_mab_messages_catches_everything
                [mkMabTick false None None false]
                [SockData truncated_udp_frame; SockData dhcp_frame] fresh)
      as [Hcaught _].
    unfold one_round.
    rewrite (Hcaught (mkMabTick true None None true) [SockData dhcp_frame]
               StructError eq_refl eq_refl eq_refl Htry).
    reflexivity.
  - destruct (receive_mab_messages_catches_everything one_round
                [SockData truncated_udp_frame; SockData dhcp_frame] fresh)
      as [_ Hcalm].
    apply Hcalm. intros tk Hin.
    repeat (apply elem_of_cons in Hin as [->|Hin]; [split; reflexivity|]).
    apply elem_of_nil in Hin. destruct Hin.
Defined.

Lemma eap_socket_close_stops_receive_loop_witness :
  eap_socket socket_closed ≫= EapSocket.socket = None
  ∧ (receive_eap_messages (EapSocket.mkEnv None None)
       [mkEapTick true true] [SockData dhcp_frame] socket_closed).1
    = ([], Returns).
Proof.
  split; [reflexivity|].
  destruct (eap_socket_close_stops_receive_loop (SM := Session))
    as [_ Hloop].
  rewrite Hloop; reflexivity.
Defined.

Lemma reauth_port_emits_iff_success_witness :
  lookup_machine port1 client1 two_sessions = Some authenticated
  ∧ is_success authenticated = true
  ∧ current_id authenticated
    ≠ Some (random_ids two_sessions (drawn two_sessions + 0)%nat)
  ∧ (∃ s' _id,
       reauth_port 0 client1 port1 two_sessions = Some s'
       ∧ port_to_eapol_id s' = <[port1 := _id]> (port_to_eapol_id two_sessions))
  ∧ reauth_port 0 client2 port1 two_sessions = Some two_sessions.
Proof.
  assert (lookup_machine port1 client1 two_sessions = Some authenticated)
    as Hsm by (vm_compute; reflexivity).
  assert (current_id authenticated
          ≠ Some (random_ids two_sessions (drawn two_sessions + 0)%nat))
    as Hne by discriminate.
  split; [exact Hsm|]. split; [reflexivity|]. split; [exact Hne|]. split.
  - destruct (reauth_port_emits_iff_success 0 client1 port1 two_sessions)
      as (_ & Hsent & _).
    destruct (Hsent authenticated 0%nat Hsm eq_refl (le_n 0) Hne)
      as (s' & _id & Hre & _ & Hid & _).
    exists s', _id. split; [exact Hre|exact Hid].
  - destruct (reauth_port_emits_iff_success 0 client2 port1 two_sessions)
      as (Hidle & _).
    apply Hidle. intros sm Hlk. vm_compute in Hlk. injection Hlk as <-.
    reflexivity.
Defined.

End Scenarios.

(** ** A port that is down and sends all the same *)

Section LateReply.
Import Chewie Scenario Accepting.


End LateReply.

(** ** Further properties of the dispatcher *)

Section PortFacts.
Context {SM : Type} `{!StateMachine SM}.
Implicit Type s : Chewie.t SM.
Import Chewie.

(** Handing one event to each machine of a list of distinct clients of
    a port. *)
Lemma deliver_each port_id ev (macs : list string) s :
  NoDup macs
  → (∀ mac, mac ∈ macs → is_Some (lookup_machine port_id mac s))
  → let s' := foldl (λ acc mac, deliver port_id mac ev acc) s macs in
    (∀ mac, lookup_machine port_id mac s'
            = if decide (mac ∈ macs)
              then (λ sm, (event ev sm).1) <$> lookup_machine port_id mac s
              else lookup_machine port_id mac s)
    ∧ (∀ q mac, q ≠ port_id → lookup_machine q mac s' = lookup_machine q mac s)
    ∧ event_log s' = event_log s ++ ((λ mac, (port_id, mac, ev)) <$> macs).
Proof.
  revert s. induction macs as [|a macs IH]; intros s Hnd Hall; cbn.
  - split; [|split]; [done|done|by rewrite app_nil_r].
  - apply NoDup_cons in Hnd as [Ha Hnd].
    assert (∀ mac, mac ∈ macs
                   → lookup_machine port_id mac (deliver port_id a ev s)
                     = lookup_machine port_id mac s) as Hrest.
    { intros mac Hin. rewrite deliver_lookup_machine, decide_False; [done|].
      intros [_ ->]. done. }
    destruct (IH (deliver port_id a ev s) Hnd) as (Hlk & Hother & Hlog).
    { intros mac Hin. rewrite Hrest by done. apply Hall. by right. }
    split; [|split].
    + intros mac. rewrite Hlk.
      destruct (decide (mac = a)) as [->|Hne].
      * rewrite (decide_False (P := a ∈ macs)) by done.
        rewrite (decide_True (P := a ∈ a :: macs)) by (by left).
        by rewrite deliver_lookup_machine, decide_True.
      * rewrite deliver_lookup_machine.
        rewrite (decide_False (P := port_id = port_id ∧ mac = a))
          by (by intros [_ ?]).
        destruct (decide (mac ∈ macs)) as [Hin|Hin].
        -- by rewrite decide_True by (by right).
        -- rewrite decide_False; [done|].
           intros [?|?]%elem_of_cons; done.
    + intros q mac Hq. rewrite Hother by done.
      rewrite deliver_lookup_machine, decide_False; [done|]. by intros [? _].
    + rewrite Hlog. destruct (Hall a) as [sm Hsm]; [by left|].
      rewrite (deliver_event_log _ _ _ _ _ Hsm). by rewrite <- app_assoc.
Qed.

(** X1.  [set_port_status(P, status)] hands the port-status event to
    every machine stored for P, once each, and to no other machine:
    each machine of P is replaced by what it becomes on the event,
    no machine appears or disappears, the machines of the other ports
    are as before, and the calls of [event] made are one per client
    of P. *)
Theorem set_port_status_reaches_every_machine (port_id : string)
    (status : bool) s :
  let ev := EventPortStatusChange status in
  let s' := set_port_status port_id status s in
  (∀ mac, lookup_machine port_id mac s'
          = (λ sm, (event ev sm).1) <$> lookup_machine port_id mac s)
  ∧ (∀ q mac, q ≠ port_id → lookup_machine q mac s' = lookup_machine q mac s)
  ∧ ∃ macs,
      NoDup macs
      ∧ (∀ mac, mac ∈ macs ↔ is_Some (lookup_machine port_id mac s))
      ∧ event_log s' = event_log s ++ ((λ mac, (port_id, mac, ev)) <$> macs).
Proof.
  intros ev s'. subst s'. unfold set_port_status.
  set (s1 := set_port_status_table (<[port_id:=status]> (port_status s)) s).
  set (s2 := match state_machines s1 !! port_id with
             | Some _ => s1
             | None => set_state_machines (<[port_id:=∅]> (state_machines s1)) s1
             end).
  assert (∀ q mac, lookup_machine q mac s2 = lookup_machine q mac s) as Hs2.
  { intros q mac. subst s2. destruct (state_machines s1 !! port_id) eqn:Hp.
    - done.
    - by rewrite (lookup_machine_empty_table port_id q mac s1 Hp). }
  assert (event_log s2 = event_log s) as Hlog2.
  { subst s2. by destruct (state_machines s1 !! port_id). }
  set (tbl := default ∅ (state_machines s2 !! port_id)).
  assert (∀ mac, mac ∈ (map_to_list tbl).*1
                 ↔ is_Some (lookup_machine port_id mac s)) as Hkeys.
  { intros mac. rewrite <- Hs2. unfold lookup_machine. fold tbl.
    rewrite list_elem_of_fmap. split.
    - intros ([m sm] & -> & Hin). apply elem_of_map_to_list in Hin. eauto.
    - intros [sm Hsm]. exists (mac, sm). split; [done|].
      by apply elem_of_map_to_list. }
  destruct (deliver_each port_id ev (map_to_list tbl).*1 s2)
    as (Hlk & Hother & Hlog).
  { apply NoDup_fst_map_to_list. }
  { intros mac Hin. rewrite Hs2. by apply Hkeys. }
  unfold tbl, ev in *. clear tbl. split; [|split].
  - intros mac. rewrite Hlk, Hs2. case_decide as Hin; [done|].
    destruct (lookup_machine port_id mac s) as [sm|] eqn:Hsm; [|done].
    exfalso. apply Hin, Hkeys. eauto.
  - intros q mac Hq. by rewrite Hother, Hs2.
  - exists (map_to_list (default ∅ (state_machines s2 !! port_id))).*1.
    split; [apply NoDup_fst_map_to_list|].
    split; [exact Hkeys|]. by rewrite Hlog, Hlog2.
Qed.

(** *** port_down and the jobs *)



Lemma cancel_lookup_ne handle jobs j :
  j ≠ handle → TimerScheduler.cancel handle jobs !! j = jobs !! j.
Proof.
  intros Hne. unfold TimerScheduler.cancel.
  rewrite list_lookup_alter, decide_False; [done|]. congruence.
Qed.




Lemma perform_all_scheduler acts s :
  scheduler_quiet acts
  → timer_scheduler (perform_all acts s) = timer_scheduler s
    ∧ port_to_identity_job (perform_all acts s) = port_to_identity_job s.
Proof.
  revert s. induction acts as [|a acts IH]; intros s Hq; [done|].
  rewrite perform_all_cons.
  destruct (IH (perform a s)) as [-> ->].
  { intros a' Hin. apply Hq. by right. }
  assert (¬ touches_scheduler a) as Ha by (apply Hq; by left).
  destruct a; cbn in Ha |- *; unfold auth_failure, auth_logoff;
    repeat case_match; cbn; done.
Qed.

Lemma deliver_scheduler port_id src_mac ev s :
  (∀ sm, scheduler_quiet (event ev sm).2)
  → timer_scheduler (deliver port_id src_mac ev s) = timer_scheduler s
    ∧ port_to_identity_job (deliver port_id src_mac ev s)
      = port_to_identity_job s.
Proof.
  intros Hq. unfold deliver.
  destruct (lookup_machine port_id src_mac s) as [sm|]; [|done].
  specialize (Hq sm). destruct (event ev sm) as [sm' acts].
  by destruct (perform_all_scheduler acts
    (store_machine port_id src_mac sm'
       (set_event_log (event_log s ++ [(port_id, src_mac, ev)]) s)) Hq)
    as [-> ->].
Qed.

Lemma set_port_status_scheduler port_id status s :
  (∀ sm, scheduler_quiet (event (EventPortStatusChange status) sm).2)
  → timer_scheduler (set_port_status port_id status s) = timer_scheduler s
    ∧ port_to_identity_job (set_port_status port_id status s)
      = port_to_identity_job s.
Proof.
  intros Hq. unfold set_port_status.
  match goal with |- context [foldl ?f ?a ?l] =>
    assert (timer_scheduler (foldl f a l) = timer_scheduler a
            ∧ port_to_identity_job (foldl f a l) = port_to_identity_job a)
      as [-> ->]
  end.
  { apply (foldl_invariant _
             (λ s', timer_scheduler s' = _ ∧ port_to_identity_job s' = _));
      [done|].
    intros a b [<- <-]. by apply deliver_scheduler. }
  by case_match.
Qed.

(** The scheduler after [port_down], with machines that leave it
    alone when told that the port is down. *)
Lemma port_down_scheduler port_id s :
  (∀ sm, scheduler_quiet (event (EventPortStatusChange false) sm).2)
  → timer_scheduler (port_down port_id s)
    = match port_to_identity_job s !! port_id with
      | Some j => TimerScheduler.cancel j (timer_scheduler s)
      | None => timer_scheduler s
      end
    ∧ port_to_identity_job (port_down port_id s) = port_to_identity_job s.
Proof.
  intros Hq.
  destruct (port_down_fields port_id s) as (_ & _ & _ & -> & -> & _).
  by destruct (set_port_status_scheduler port_id false s Hq) as [-> ->].
Qed.

(** X3.  [port_down(P)] cancels the one job that
    [port_to_identity_job] holds for P and no other: every other job
    of the scheduler, among them a job registered for P earlier and
    replaced in the table since, is as it was, and no job is added or
    removed.  (The machines are taken not to write the scheduler when
    told that the port is down.) *)
Theorem port_down_cancels_only_stored_job (port_id : string) s :
  (∀ sm, scheduler_quiet (event (EventPortStatusChange false) sm).2)
  → length (timer_scheduler (port_down port_id s))
    = length (timer_scheduler s)
    ∧ ∀ j, port_to_identity_job s !! port_id ≠ Some j
           → timer_scheduler (port_down port_id s) !! j
             = timer_scheduler s !! j.
Proof.
  intros Hq. destruct (port_down_scheduler port_id s Hq) as [-> _].
  destruct (port_to_identity_job s !! port_id) as [j0|]; [|done].
  split.
  - unfold TimerScheduler.cancel. apply length_alter.
  - intros j Hne. apply cancel_lookup_ne. congruence.
Qed.

(** X4.  [auth_success] replaces the job stored for the port without
    cancelling it, so a later [port_down] cancels the
    re-authentication only: the job that was stored for P before
    [auth_success] (the preemptive check registered by [port_up] or by
    its last firing) is in the scheduler exactly as it was. *)
Theorem port_down_after_auth_success_keeps_earlier_job
    (src_mac port_id : string) (period : Z) s (j0 : nat)
    (job0 : TimerScheduler.Job) :
  (∀ sm, scheduler_quiet (event (EventPortStatusChange false) sm).2)
  → port_to_identity_job s !! port_id = Some j0
  → timer_scheduler s !! j0 = Some job0
  → let s' := port_down port_id (auth_success src_mac port_id period s) in
    timer_scheduler s' !! j0 = Some job0
    ∧ port_to_identity_job s' !! port_id = Some (length (timer_scheduler s))
    ∧ timer_scheduler s' !! length (timer_scheduler s)
      = Some (TimerScheduler.mkJob period
                (TimerScheduler.reauth_port_cb src_mac port_id) true).
Proof.
  intros Hq Hj0 Hjob0 s'. subst s'.
  destruct (port_down_scheduler port_id
              (auth_success src_mac port_id period s) Hq) as [-> ->].
  assert (port_to_identity_job (auth_success src_mac port_id period s)
          = <[port_id := length (timer_scheduler s)]> (port_to_identity_job s)
          ∧ timer_scheduler (auth_success src_mac port_id period s)
            = timer_scheduler s
                ++ [TimerScheduler.mkJob period
                      (TimerScheduler.reauth_port_cb src_mac port_id) false])
    as [-> ->].
  { unfold auth_success. by destruct (auth_handler (handlers s)). }
  rewrite lookup_insert_eq.
  pose proof (lookup_lt_Some _ _ _ Hjob0) as Hlt.
  split; [|split; [done|]].
  - rewrite cancel_lookup_ne by lia. by rewrite lookup_app_l.
  - unfold TimerScheduler.cancel.
    rewrite list_lookup_alter, decide_True by done.
    rewrite lookup_app_r by done. by rewrite Nat.sub_diag.
Qed.

End PortFacts.

(** ** Further properties of the routing *)

Section RoutingFacts.
Context {SM : Type} `{!StateMachine SM}.
Implicit Type s : Chewie.t SM.
Import Chewie.

(** What [get_state_machine] followed by one [event] does. *)
Lemma route_to_machine src_mac port_id message_id ev s :
  let sm0 :=
    default (if message_id =? -2
             then MacAuthenticationBypassStateMachine src_mac port_id
             else FullEAPStateMachine src_mac port_id)
      (lookup_machine port_id src_mac s) in
  let s' :=
    deliver port_id src_mac ev
      (get_state_machine src_mac port_id message_id s).2 in
  event_log s' = event_log s ++ [(port_id, src_mac, ev)]
  ∧ lookup_machine port_id src_mac s' = Some (event ev sm0).1
  ∧ (∀ q m, ¬ (q = port_id ∧ m = src_mac)
            → lookup_machine q m s' = lookup_machine q m s)
  ∧ same_ports s s'.
Proof.
  intros sm0 s'. subst s'.
  destruct (get_state_machine_lookup src_mac port_id message_id s)
    as [Hstored Hother].
  destruct (get_state_machine_others src_mac port_id message_id s)
    as (Hports & _ & _ & _ & Hlog).
  assert ((get_state_machine src_mac port_id message_id s).1 = sm0) as Hsm0.
  { subst sm0. destruct (lookup_machine port_id src_mac s) as [sm|] eqn:Hsm.
    - by rewrite (get_state_machine_existing _ _ _ _ sm Hsm).
    - by destruct (get_state_machine_new src_mac port_id message_id s Hsm)
        as [-> _]. }
  destruct (get_state_machine src_mac port_id message_id s) as [sm s1].
  cbn [fst snd] in *. subst sm.
  split; [|split; [|split]].
  - by rewrite (deliver_event_log _ _ _ _ _ Hstored), Hlog.
  - rewrite deliver_lookup_machine, decide_True by done. by rewrite Hstored.
  - intros q m Hne. rewrite deliver_lookup_machine, decide_False by done.
    by apply Hother.
  - eapply same_ports_trans; [exact Hports|apply deliver_same_ports].
Qed.

(** X5.  [send_eth_to_state_machine]: a frame that does not parse
    raises and nothing has changed; a frame that parses is handed, as
    one [EventMessageReceived], to the machine stored for (destination
    MAC, source MAC), which is a new MAB machine when there was none
    and the machine already there otherwise; no other session changes
    and the port tables are as before.  There is no test of
    [running] on this path. *)
Theorem send_eth_to_state_machine_routes `{!Parsers}
    (packed_message : list byte) s :
  match EthernetPacket_parse packed_message with
  | Raise e => send_eth_to_state_machine packed_message s = Raise e
  | Ok pkt =>
      let port_id := eth_dst_mac pkt in
      let src_mac := eth_src_mac pkt in
      let ev := EventMessageReceived (MsgEthernet pkt) port_id in
      let sm0 :=
        default (MacAuthenticationBypassStateMachine src_mac port_id)
          (lookup_machine port_id src_mac s) in
      ∃ s',
        send_eth_to_state_machine packed_message s = Ok s'
        ∧ event_log s' = event_log s ++ [(port_id, src_mac, ev)]
        ∧ lookup_machine port_id src_mac s' = Some (event ev sm0).1
        ∧ (∀ q m, ¬ (q = port_id ∧ m = src_mac)
                  → lookup_machine q m s' = lookup_machine q m s)
        ∧ same_ports s s'
  end.
Proof.
  unfold send_eth_to_state_machine.
  destruct (EthernetPacket_parse packed_message) as [pkt|e]; [|done].
  cbn. eexists. split; [done|]. unfold send_eth_to_state_machine_parsed.
  pose proof (route_to_machine (eth_src_mac pkt) (eth_dst_mac pkt) (-2)
                (EventMessageReceived (MsgEthernet pkt) (eth_dst_mac pkt)) s)
    as Hroute.
  destruct (get_state_machine (eth_src_mac pkt) (eth_dst_mac pkt) (-2) s)
    as [sm s1]. exact Hroute.
Qed.

(** While [running] is set, [send_eap_to_state_machine] is
    [get_state_machine] followed by one [event]. *)
Lemma send_eap_to_state_machine_running eap dst_mac s :
  running s = true
  → ∃ ev,
      send_eap_to_state_machine eap dst_mac s
      = deliver dst_mac (eap_src_mac eap) ev
          (get_state_machine (eap_src_mac eap) dst_mac
             (default (-1) (eap_message_id eap)) s).2
      ∧ ev = (if negb (default (-1) (eap_message_id eap) =? -1)
                 && (default (-1) (eap_message_id eap)
                     =? default (-2) (port_to_eapol_id s !! dst_mac))
              then EventPreemptiveEAPResponseMessageReceived (MsgEap eap)
                     dst_mac (default (-2) (port_to_eapol_id s !! dst_mac))
              else EventMessageReceived (MsgEap eap) dst_mac).
Proof.
  intros Hrun. unfold send_eap_to_state_machine. rewrite Hrun. cbn.
  destruct (get_state_machine_others (eap_src_mac eap) dst_mac
              (default (-1) (eap_message_id eap)) s) as ((_ & Hid & _) & _).
  destruct (get_state_machine _ _ _ s) as [sm s1]. cbn in Hid |- *.
  rewrite Hid. by eexists.
Qed.

(** X6.  A client first seen through a DHCP frame keeps its MAB
    machine: an EAP message it sends afterwards on the same port is
    handed to that MAB machine, as a plain or a preemptive-response
    event, and no EAP machine is created for it. *)
Theorem mab_client_keeps_mab_machine (pkt : EthernetPacket)
    (eap : EapMessage) s :
  let port_id := eth_dst_mac pkt in
  let src_mac := eth_src_mac pkt in
  let ev1 := EventMessageReceived (MsgEthernet pkt) port_id in
  let mab := MacAuthenticationBypassStateMachine src_mac port_id in
  let s2 :=
    send_eap_to_state_machine eap port_id
      (send_eth_to_state_machine_parsed pkt s) in
  lookup_machine port_id src_mac s = None
  → running s = true
  → eap_src_mac eap = src_mac
  → ∃ ev2,
      (ev2 = EventMessageReceived (MsgEap eap) port_id
       ∨ ∃ p, ev2 = EventPreemptiveEAPResponseMessageReceived (MsgEap eap)
                      port_id p)
      ∧ lookup_machine port_id src_mac s2
        = Some (event ev2 (event ev1 mab).1).1
      ∧ event_log s2
        = event_log s ++ [(port_id, src_mac, ev1); (port_id, src_mac, ev2)].
Proof.
  intros port_id src_mac ev1 mab s2 Hnone Hrun Hsrc. subst s2.
  unfold send_eth_to_state_machine_parsed. fold port_id src_mac ev1.
  pose proof (route_to_machine src_mac port_id (-2) ev1 s)
    as (Hlog1 & Hlk1 & _ & Hports1).
  destruct (get_state_machine src_mac port_id (-2) s) as [sm0 s0].
  cbn [snd] in Hlog1, Hlk1, Hports1.
  set (s1 := deliver port_id src_mac ev1 s0) in *.
  rewrite Hnone in Hlk1. cbn in Hlk1. fold mab in Hlk1.
  assert (running s1 = true) as Hrun1.
  { destruct Hports1 as (-> & _). exact Hrun. }
  destruct (send_eap_to_state_machine_running eap port_id s1 Hrun1)
    as (ev2 & -> & Hev2).
  rewrite Hsrc.
  pose proof (route_to_machine src_mac port_id
                (default (-1) (eap_message_id eap)) ev2 s1)
    as (Hlog2 & Hlk2 & _).
  rewrite Hlk1 in Hlk2. cbn in Hlk2.
  exists ev2. split; [|split].
  - rewrite Hev2. case_match; eauto.
  - exact Hlk2.
  - rewrite Hlog2, Hlog1. by rewrite <- app_assoc.
Qed.

(** X7.  [port_down(P)] does not keep sessions from being created on
    P: a RADIUS reply for (m, P) that arrives after it is handed to a
    new EAP machine stored for (m, P), not to the session that sent
    the request, and so is, while [running] is set, an EAP message
    from m on P whose id is a byte or absent; P stays down. *)
Theorem port_down_then_message_starts_new_machine
    (src_mac port_id : string) s :
  (∀ radius,
     let s2 :=
       send_radius_to_state_machine src_mac port_id radius
         (port_down port_id s) in
     lookup_machine port_id src_mac s2
     = Some (event (EventRadiusMessageReceived radius)
               (FullEAPStateMachine src_mac port_id)).1
     ∧ port_status s2 !! port_id = Some false)
  ∧ (∀ eap,
       running s = true
       → eap_src_mac eap = src_mac
       → (∀ m, eap_message_id eap = Some m → 0 ≤ m ≤ 255)
       → let s2 := send_eap_to_state_machine eap port_id (port_down port_id s) in
         lookup_machine port_id src_mac s2
         = Some (event (EventMessageReceived (MsgEap eap) port_id)
                   (FullEAPStateMachine src_mac port_id)).1
         ∧ port_status s2 !! port_id = Some false).
Proof.
  destruct (port_down_fields port_id s)
    as (Hsm & Hid & Hst & _ & _ & _ & Hrun & _).
  assert (lookup_machine port_id src_mac (port_down port_id s) = None)
    as Hnone.
  { unfold lookup_machine. by rewrite Hsm, lookup_delete_eq. }
  assert (port_status (port_down port_id s) !! port_id = Some false) as Hdown.
  { rewrite Hst. apply lookup_insert_eq. }
  split.
  - intros radius s2. subst s2. unfold send_radius_to_state_machine.
    pose proof (route_to_machine src_mac port_id (-1)
                  (EventRadiusMessageReceived radius) (port_down port_id s))
      as (_ & Hlk & _ & (_ & _ & Hps & _)).
    destruct (get_state_machine src_mac port_id (-1) (port_down port_id s))
      as [sm s1]. cbn [snd] in Hlk, Hps.
    rewrite Hnone in Hlk. cbn in Hlk. by rewrite Hps.
  - intros eap Hr Hsrc Hbyte s2. subst s2.
    destruct (send_eap_to_state_machine_running eap port_id
                (port_down port_id s)) as (ev & -> & Hev);
      [by rewrite Hrun|].
    rewrite Hsrc.
    pose proof (route_to_machine src_mac port_id
                  (default (-1) (eap_message_id eap)) ev (port_down port_id s))
      as (_ & Hlk & _ & (_ & _ & Hps & _)).
    rewrite Hnone in Hlk. cbn [default] in Hlk.
    assert (default (-1) (eap_message_id eap) ≠ -2) as Hk.
    { destruct (eap_message_id eap) as [m|]; cbn; [|lia].
      specialize (Hbyte m eq_refl). lia. }
    rewrite (proj2 (Z.eqb_neq _ _) Hk) in Hlk.
    assert (ev = EventMessageReceived (MsgEap eap) port_id) as Hplain.
    { rewrite Hev, Hid, lookup_delete_eq. cbn [default].
      by rewrite (proj2 (Z.eqb_neq _ _) Hk), andb_false_r. }
    clear Hev. subst ev. by rewrite Hps.
Qed.

End RoutingFacts.

(** ** Further properties of the preemptive identity request *)

Section PreemptiveFacts.
Context {SM : Type} `{!StateMachine SM}.
Implicit Type s : Chewie.t SM.
Import Chewie.

Lemma preemptive_timer_keeps_log fuel port_id s s' :
  send_preemptive_identity_request_if_no_active_on_port fuel port_id s
  = Some s'
  → event_log s' = event_log s.
Proof.
  unfold send_preemptive_identity_request_if_no_active_on_port. cbn.
  destruct (default false (port_status s !! port_id)); cbn;
    [destruct (any_active _); cbn|]; by intros [= <-].
Qed.

(** X8.  The preemptive round trip.  When the check fires on a port
    that is up and has no machine in progress or authenticated, the
    request it queues carries the id the random source gave; a
    response with that id (a byte) arriving on the port while
    [running] is set is handed to the sender's machine, created as an
    EAP machine if there was none, as the preemptive-response event
    with that id, and the id is still recorded for the port
    afterwards. *)
Theorem preemptive_request_then_response (fuel : nat) (port_id : string)
    (eap : EapMessage) s s1 :
  let _id := random_ids s (drawn s) in
  let src_mac := eap_src_mac eap in
  let ev :=
    EventPreemptiveEAPResponseMessageReceived (MsgEap eap) port_id _id in
  let s2 := send_eap_to_state_machine eap port_id s1 in
  running s = true
  → port_status s !! port_id = Some true
  → (∀ mac sm, lookup_machine port_id mac s = Some sm
               → is_in_progress sm = false ∧ is_success sm = false)
  → 0 ≤ _id ≤ 255
  → eap_message_id eap = Some _id
  → send_preemptive_identity_request_if_no_active_on_port fuel port_id s
    = Some s1
  → event_log s2 = event_log s ++ [(port_id, src_mac, ev)]
    ∧ lookup_machine port_id src_mac s2
      = Some (event ev
                (default (FullEAPStateMachine src_mac port_id)
                   (lookup_machine port_id src_mac s))).1
    ∧ port_to_eapol_id s2 !! port_id = Some _id.
Proof.
  intros _id src_mac ev s2 Hrun Hup Hidle Hbyte Hmid Hfire. subst s2.
  pose proof (preemptive_timer_keeps_log _ _ _ _ Hfire) as Hlog1.
  destruct (preemptive_timer_fires fuel port_id s)
    as (s1' & Hfire' & _ & _ & _ & Hsm & Hrun1 & Hcases).
  rewrite Hfire in Hfire'. injection Hfire' as <-.
  destruct Hcases as [(_ & _ & _ & Hid)|(Hno & _)]; [|by destruct Hno].
  fold _id in Hid.
  assert (port_to_eapol_id s1 !! port_id = Some _id) as Hrec.
  { rewrite Hid. apply lookup_insert_eq. }
  destruct (send_eap_to_state_machine_running eap port_id s1)
    as (ev' & -> & Hev); [congruence|].
  fold src_mac. rewrite Hmid, Hrec in Hev. cbn [default from_option id] in Hev.
  assert (_id ≠ -1) as Hm1 by lia. assert (_id ≠ -2) as Hm2 by lia.
  rewrite (proj2 (Z.eqb_neq _ _) Hm1), Z.eqb_refl in Hev. cbn in Hev.
  fold ev in Hev. subst ev'.
  pose proof (route_to_machine src_mac port_id
                (default (-1) (eap_message_id eap)) ev s1)
    as (Hlog & Hlk & _ & (_ & Hids & _)).
  rewrite Hmid in Hlog, Hlk, Hids |- *. cbn [default from_option id] in *.
  rewrite (proj2 (Z.eqb_neq _ _) Hm2) in Hlk.
  split; [|split].
  - by rewrite Hlog, Hlog1.
  - rewrite Hlk. unfold lookup_machine. by rewrite Hsm.
  - by rewrite Hids.
Qed.

Lemma step_preemptive_id fuel port_id i s s' :
  ¬ rewrites_preemptive_id port_id i
  → step fuel i s = Some s'
  → port_to_eapol_id s' !! port_id = port_to_eapol_id s !! port_id.
Proof.
  intros Hi Hstep.
  destruct i as [q|q|q|m q|eap d|pkt|m q r|q m|acts|];
    cbn [step] in Hstep; cbn [rewrites_preemptive_id] in Hi.
  - injection Hstep as <-. unfold port_up. cbn.
    by destruct (set_port_status_ports q true s) as (_ & _ & -> & _).
  - injection Hstep as <-.
    destruct (port_down_fields q s) as (_ & -> & _).
    by rewrite lookup_delete_ne.
  - destruct (preemptive_timer_fires fuel q s)
      as (s2 & Hs2 & _ & _ & _ & _ & _ & Hcases).
    assert (s2 = s') as -> by congruence.
    destruct Hcases as [(_ & _ & _ & ->)|(_ & _ & -> & _)]; [|done].
    by rewrite lookup_insert_ne.
  - unfold reauth_port in Hstep.
    destruct (lookup_machine q m s) as [sm|]; [|by injection Hstep as <-].
    destruct (is_success sm); [|by injection Hstep as <-].
    destruct (send_preemptive_identity_request_sent _ _ _ _ _ Hstep)
      as (_id & n & -> & _).
    cbn. by rewrite lookup_insert_ne.
  - injection Hstep as <-. unfold send_eap_to_state_machine.
    destruct (running s) eqn:Hrun; cbn; [|done].
    destruct (send_eap_to_state_machine_running eap d s Hrun)
      as (ev & Heq & _).
    unfold send_eap_to_state_machine in Heq. rewrite Hrun in Heq.
    cbn in Heq. rewrite Heq.
    by pose proof (route_to_machine (eap_src_mac eap) d
                     (default (-1) (eap_message_id eap)) ev s)
      as (_ & _ & _ & (_ & -> & _)).
  - injection Hstep as <-. unfold send_eth_to_state_machine_parsed.
    pose proof (route_to_machine (eth_src_mac pkt) (eth_dst_mac pkt) (-2)
                  (EventMessageReceived (MsgEthernet pkt) (eth_dst_mac pkt)) s)
      as (_ & _ & _ & (_ & Hid & _)).
    destruct (get_state_machine _ _ _ s) as [sm s1].
    cbn [snd] in Hid. cbv beta iota. by rewrite Hid.
  - injection Hstep as <-. unfold send_radius_to_state_machine.
    pose proof (route_to_machine m q (-1) (EventRadiusMessageReceived r) s)
      as (_ & _ & _ & (_ & Hid & _)).
    destruct (get_state_machine _ _ _ s) as [sm s1].
    cbn [snd] in Hid. cbv beta iota. by rewrite Hid.
  - injection Hstep as <-.
    by destruct (deliver_same_ports q m EventTimerExpired s) as (_ & -> & _).
  - injection Hstep as <-.
    by destruct (perform_all_same_ports acts s) as (_ & -> & _).
  - by injection Hstep as <-.
Qed.

(** X9.  The preemptive id recorded for a port is written only by
    [port_down] for that port and by the two senders of identity
    requests for that port: through any other inputs (messages and
    RADIUS replies on any port, the response that matched the id
    among them, timers of machines, events of other ports, [stop]) the
    entry of [port_to_eapol_id] for the port is what it was. *)
Theorem preemptive_id_stays_recorded (fuel : nat) (port_id : string)
    (inputs : list Input) s s' :
  (∀ i, i ∈ inputs → ¬ rewrites_preemptive_id port_id i)
  → run fuel inputs s = Some s'
  → port_to_eapol_id s' !! port_id = port_to_eapol_id s !! port_id.
Proof.
  intros Hok Hrun.
  apply (run_invariant fuel
           (λ s0, port_to_eapol_id s0 !! port_id
                  = port_to_eapol_id s !! port_id)
           (λ i, ¬ rewrites_preemptive_id port_id i)) with inputs s;
    [|by apply Forall_forall|done|done].
  intros i s0 s1 Hi Hs0 Hstep. by rewrite (step_preemptive_id _ _ _ _ _ Hi Hstep).
Qed.

Lemma redraw_spins fuel cur s :
  (∀ n, random_ids s n = cur) → redraw fuel cur cur s = None.
Proof.
  revert s. induction fuel as [|fuel IH]; intros s Hconst; cbn;
    rewrite Z.eqb_refl; [done|].
  rewrite Hconst. by apply IH.
Qed.

(** X10.  The choice of the re-authentication id is a loop without a
    bound: with a random source that returns nothing but the
    [current_id] of the machine being re-authenticated, [reauth_port]
    has not returned after any number of draws, and nothing has been
    queued. *)
Theorem reauth_port_spins_on_constant_source (fuel : nat)
    (src_mac port_id : string) s (sm : SM) (cur : Z) :
  lookup_machine port_id src_mac s = Some sm
  → is_success sm = true
  → current_id sm = Some cur
  → (∀ n, random_ids s n = cur)
  → reauth_port fuel src_mac port_id s = None.
Proof.
  intros Hsm Hok Hcur Hconst. unfold reauth_port. rewrite Hsm, Hok.
  unfold send_preemptive_identity_request. cbn. rewrite Hcur. cbn.
  rewrite Hconst. by rewrite redraw_spins.
Qed.

End PreemptiveFacts.

(** ** Further properties of the sockets and the receive loops *)

Section SocketFacts.
Import NfvSockets NfvSockets.MabSocket.

(** X12.  On frames long enough to hold the UDP ports (38 bytes or
    more) [MabSocket.receive] is the documented filter: it skips the
    frames that are not DHCP client frames, returns the first one that
    is, leaving what follows on the socket, and keeps waiting when
    there is none. *)
Theorem mab_receive_returns_first_dhcp_frame (pre : list (list byte))
    (pkt : list byte) (rest : list SockEvent) :
  Forall (λ p, (38 ≤ length p)%nat ∧ ¬ dhcp_client_frame p) pre
  → (38 ≤ length pkt)%nat
  → dhcp_client_frame pkt
  → receive ((SockData <$> pre) ++ SockData pkt :: rest) = Returned pkt rest
    ∧ receive (SockData <$> pre) = Awaiting.
Proof.
  intros Hpre Hlen Hdhcp. split.
  - rewrite receive_skips_long_frames by done. apply receive_returns.
    rewrite filter_frame_long by done. by rewrite bool_decide_eq_true_2.
  - rewrite <- (app_nil_r (SockData <$> pre)).
    by rewrite receive_skips_long_frames.
Qed.

End SocketFacts.

Section EapLoopFacts.
Context {SM : Type} `{!StateMachine SM} `{!Parsers}.
Implicit Type s : Chewie.t SM.
Import Chewie NfvSockets.

Lemma eap_finally_closes env s :
  ∃ calls s',
    eap_finally env s = Ok (calls, s')
    ∧ eap_socket s' ≫= EapSocket.socket = None.
Proof.
  unfold eap_finally. destruct (eap_socket s) as [sock|] eqn:Hsock.
  - rewrite close_returns. cbn. by eexists _, _.
  - eexists _, _. split; [done|]. by rewrite Hsock.
Qed.

(** X11.  However [receive_eap_messages] ends (it returns, or an
    exception leaves it) the [finally] clause has run and the EAP
    socket is closed: the dispatcher has no socket object or one
    whose [socket] attribute is [None].  No [OSError] and no
    [CancelledError] ever leaves the coroutine: both are swallowed by
    the outer handlers. *)
Theorem receive_eap_messages_closes_socket (env : EapSocket.CloseEnv)
    (ticks : list EapTick) (incoming : list SockEvent) s :
  let r := receive_eap_messages env ticks incoming s in
  (r.1.2 = Returns ∨ (∃ e, r.1.2 = Escapes e)
   → eap_socket r.2 ≫= EapSocket.socket = None)
  ∧ (∀ e, r.1.2 = Escapes e
          → is_OSError e = false ∧ is_CancelledError e = false).
Proof.
  intros r. subst r. unfold receive_eap_messages.
  destruct (eap_while ticks incoming s) as [[calls e] s1].
  destruct (eap_finally_closes env s1) as (calls' & s2 & Hfin & Hclosed).
  rewrite Hfin.
  destruct e as [|x| |]; cbn.
  - split; [done|]. by intros e.
  - destruct (is_OSError x) eqn:Hos; cbn.
    { split; [done|]. by intros e. }
    destruct (is_CancelledError x) eqn:Hca; cbn.
    { split; [done|]. by intros e. }
    split; [done|]. by intros e [= <-].
  - split; [|by intros e]. intros [?|[e ?]]; done.
  - split; [|by intros e]. intros [?|[e ?]]; done.
Qed.

End EapLoopFacts.

(** ** The RADIUS socket, [cleanup] and [run] *)

Section RadiusSocketFacts.
Import NfvSockets.

(** X13.  [RadiusSocket.receive] on a socket that was set up returns
    the first datagram read and leaves the later ones on the socket;
    reads that would block are ignored and the wait goes on; the first
    other read error is raised to the caller. *)
Theorem radius_receive_skips_blocking_reads (self : RadiusSocket.t)
    (blocked : list exn) (rest : list SockEvent) :
  is_Some (RadiusSocket.socket self)
  → Forall (λ e, RadiusSocket.is_BlockingIOError e = true) blocked
  → (∀ data,
       RadiusSocket.receive self
         ((SockFail <$> blocked) ++ SockData data :: rest)
       = RadiusSocket.Returned data rest)
    ∧ (∀ e,
         RadiusSocket.is_BlockingIOError e = false
         → RadiusSocket.receive self
             ((SockFail <$> blocked) ++ SockFail e :: rest)
           = RadiusSocket.Raised (Builtin e) rest)
    ∧ RadiusSocket.receive self (SockFail <$> blocked)
      = RadiusSocket.Awaiting.
Proof.
  intros [fd Hfd] Hblocked. unfold RadiusSocket.receive. rewrite Hfd.
  induction Hblocked as [|e blocked He _ IH]; cbn.
  - split; [done|]. split; [|done]. by intros e ->.
  - rewrite He. exact IH.
Qed.

End RadiusSocketFacts.

Section DaemonFacts.
Context {SM : Type}.
Implicit Type d : Daemon.t SM.
Import NfvSockets.

Lemma eap_close_returns env sock :
  EapSocket.close env sock
  = Ok (EapSocket.mk None,
        match EapSocket.socket sock with
        | Some fd => [EapSocket.SysShutdown fd; EapSocket.SysClose fd]
        | None => []
        end).
Proof.
  destruct sock as [[fd|]]; unfold EapSocket.close; cbn; [|done].
  by destruct env as [[?|] [?|]].
Qed.

(** What [cleanup] does, whatever the kernel answers. *)
Lemma cleanup_spec (env : Daemon.Env SM) d :
  let c := Daemon.dispatcher d in
  let c' :=
    match Chewie.eap_socket c with
    | Some _ =>
        Chewie.set_eap_socket (Some (EapSocket.mk None))
          (Chewie.set_running false c)
    | None => Chewie.set_running false c
    end in
  let eap_calls :=
    match Chewie.eap_socket c ≫= EapSocket.socket with
    | Some fd => [EapSocket.SysShutdown fd; EapSocket.SysClose fd]
    | None => []
    end in
  Daemon.cleanup env d
  = match Daemon.radius_socket d with
    | None =>
        (Done tt,
         Daemon.mk c' (Daemon.eap_interface_index d) (Daemon.mab_socket d)
           None,
         eap_calls)
    | Some rsock =>
        ((RadiusSocket.close (Daemon.radius_close env) rsock).1,
         Daemon.mk c' (Daemon.eap_interface_index d) (Daemon.mab_socket d)
           (Some rsock),
         eap_calls ++ (RadiusSocket.close (Daemon.radius_close env) rsock).2)
    end.
Proof.
  intros c c' eap_calls. subst c c' eap_calls. unfold Daemon.cleanup. cbn.
  destruct (Chewie.eap_socket (Daemon.dispatcher d)) as [sock|]; cbn.
  - rewrite eap_close_returns.
    destruct (Daemon.radius_socket d) as [rsock|]; [|done].
    by destruct (RadiusSocket.close (Daemon.radius_close env) rsock).
  - destruct (Daemon.radius_socket d) as [rsock|]; [|done].
    by destruct (RadiusSocket.close (Daemon.radius_close env) rsock).
Qed.

(** X14.  [cleanup] always ends with [running] false and the EAP
    socket closed (its descriptor, if it had one, shut down and
    closed first), also when it raises; it raises exactly when there
    is a RADIUS socket object that was never opened or whose [close]
    fails, the [close] of the RADIUS socket not being guarded; it
    leaves the MAB socket, the RADIUS socket object and everything
    in the dispatcher but [running] and the EAP socket as they were. *)
Theorem cleanup_stops_and_closes_eap (env : Daemon.Env SM) d :
  let res := Daemon.cleanup env d in
  let d' := res.1.2 in
  Chewie.running (Daemon.dispatcher d') = false
  ∧ Chewie.eap_socket (Daemon.dispatcher d') ≫= EapSocket.socket = None
  ∧ (∀ fd,
       Chewie.eap_socket (Daemon.dispatcher d) ≫= EapSocket.socket = Some fd
       → ∃ calls,
           res.2 = [EapSocket.SysShutdown fd; EapSocket.SysClose fd] ++ calls)
  ∧ (res.1.1 = Done tt
     ↔ ∀ rsock,
         Daemon.radius_socket d = Some rsock
         → is_Some (RadiusSocket.socket rsock)
           ∧ EapSocket.close_errno (Daemon.radius_close env) = None)
  ∧ Daemon.mab_socket d' = Daemon.mab_socket d
  ∧ Daemon.radius_socket d' = Daemon.radius_socket d
  ∧ Chewie.state_machines (Daemon.dispatcher d')
    = Chewie.state_machines (Daemon.dispatcher d)
  ∧ Chewie.port_status (Daemon.dispatcher d')
    = Chewie.port_status (Daemon.dispatcher d)
  ∧ Chewie.port_to_eapol_id (Daemon.dispatcher d')
    = Chewie.port_to_eapol_id (Daemon.dispatcher d)
  ∧ Chewie.port_to_identity_job (Daemon.dispatcher d')
    = Chewie.port_to_identity_job (Daemon.dispatcher d)
  ∧ Chewie.timer_scheduler (Daemon.dispatcher d')
    = Chewie.timer_scheduler (Daemon.dispatcher d)
  ∧ Chewie.eap_output_messages (Daemon.dispatcher d')
    = Chewie.eap_output_messages (Daemon.dispatcher d)
  ∧ Chewie.radius_output_messages (Daemon.dispatcher d')
    = Chewie.radius_output_messages (Daemon.dispatcher d).
Proof.
  intros res d'. subst res d'. rewrite cleanup_spec.
  destruct (Daemon.radius_socket d) as [rsock|] eqn:Hr; cbn [fst snd].
  - split.
    { destruct (Chewie.eap_socket (Daemon.dispatcher d)) eqn:He; cbn;
        by rewrite ?He. }
    split.
    { destruct (Chewie.eap_socket (Daemon.dispatcher d)) eqn:He; cbn;
        by rewrite ?He. }
    split.
    { intros fd ->. by eexists. }
    split.
    { unfold RadiusSocket.close.
      destruct (RadiusSocket.socket rsock) as [rfd|] eqn:Hfd; cbn.
      - destruct (EapSocket.close_errno (Daemon.radius_close env)) eqn:Hc;
          cbn.
        + split; [done|]. intros Hall.
          by destruct (Hall rsock eq_refl) as [_ ?].
        + split; [|done]. intros _ rsock' [= <-]. rewrite Hfd. eauto.
      - split; [done|]. intros Hall.
        destruct (Hall rsock eq_refl) as [[? Hsome] _].
        rewrite Hfd in Hsome. done. }
    by destruct (Chewie.eap_socket (Daemon.dispatcher d)).
  - split.
    { destruct (Chewie.eap_socket (Daemon.dispatcher d)) eqn:He; cbn;
        by rewrite ?He. }
    split.
    { destruct (Chewie.eap_socket (Daemon.dispatcher d)) eqn:He; cbn;
        by rewrite ?He. }
    split.
    { intros fd ->. exists []. by rewrite app_nil_r. }
    split; [done|].
    by destruct (Chewie.eap_socket (Daemon.dispatcher d)).
Qed.

Lemma cleanup_not_cancelled (env : Daemon.Env SM) d e :
  (Daemon.cleanup env d).1.1 = Fails e → Daemon.is_Cancelled e = false.
Proof.
  rewrite cleanup_spec.
  destruct (Daemon.radius_socket d) as [rsock|]; cbn [fst snd]; [|done].
  unfold RadiusSocket.close.
  destruct (RadiusSocket.socket rsock); cbn; [|by intros [= <-]].
  destruct (EapSocket.close_errno (Daemon.radius_close env)); cbn; [|done].
  by intros [= <-].
Qed.

Lemma cleanup_closes (env : Daemon.Env SM) d :
  Chewie.running (Daemon.dispatcher (Daemon.cleanup env d).1.2) = false
  ∧ Chewie.eap_socket (Daemon.dispatcher (Daemon.cleanup env d).1.2)
    ≫= EapSocket.socket = None.
Proof.
  rewrite cleanup_spec.
  destruct (Daemon.radius_socket d) as [rsock|]; cbn [fst snd];
    destruct (Chewie.eap_socket (Daemon.dispatcher d)) eqn:He; cbn;
    by rewrite ?He.
Qed.

(** X15.  [run] always goes through [cleanup]: whichever set-up step
    fails and whatever the tasks did, it ends with [running] false and
    the EAP socket closed, and a [CancelledError] never leaves it. *)
Theorem run_always_cleans_up (env : Daemon.Env SM) d :
  let res := Daemon.run env d in
  Chewie.running (Daemon.dispatcher res.1.2) = false
  ∧ Chewie.eap_socket (Daemon.dispatcher res.1.2) ≫= EapSocket.socket = None
  ∧ res.1.1 ≠ Fails (Builtin CancelledError).
Proof.
  intros res. subst res. unfold Daemon.run.
  destruct (Daemon.run_body env (Daemon.set_running true d)) as [r d1].
  pose proof (cleanup_closes env d1) as [Hrun Hsock].
  pose proof (cleanup_not_cancelled env d1) as Hnc.
  destruct (Daemon.cleanup env d1) as [[rc d2] calls]. cbn [fst snd] in *.
  destruct rc as [[]|e]; cbn [fst snd].
  - split; [done|]. split; [done|].
    destruct r as [[]|e]; [done|].
    destruct (Daemon.is_Cancelled e) eqn:He; [done|].
    intros [= ->]. done.
  - split; [done|]. split; [done|].
    intros [= ->]. by specialize (Hnc _ eq_refl).
Qed.

(** X16.  Nothing closes the MAB socket: when [run] got as far as
    creating it, the descriptor is still held by the MAB socket object
    when [run] ends, whether the set-up failed afterwards or the tasks
    ran and ended; [cleanup] closes the EAP and the RADIUS socket
    only.  (The tasks are taken not to replace the MAB socket
    object: no code of the dispatcher assigns it but its set-up.) *)
Theorem run_leaves_mab_socket_open (env : Daemon.Env SM) d (fd : Z) :
  (PromiscuousSocket._setup (Daemon.eap_setup env)
     (PromiscuousSocket.mk None None)).1 = Ok tt
  → PromiscuousSocket.socket_answer (Daemon.mab_setup env) = inl fd
  → (∀ d0, Daemon.mab_socket (Daemon.threads env d0).2 = Daemon.mab_socket d0)
  → Daemon.mab_socket (Daemon.run env d).1.2 ≫= PromiscuousSocket.socket
    = Some fd.
Proof.
  intros Heap Hmab Hthreads. unfold Daemon.run.
  assert (Daemon.mab_socket (Daemon.run_body env (Daemon.set_running true d)).2
          ≫= PromiscuousSocket.socket = Some fd) as Hbody.
  { unfold Daemon.run_body, Daemon.setup_eap_socket.
    destruct (PromiscuousSocket._setup (Daemon.eap_setup env)
                (PromiscuousSocket.mk None None)) as [r1 sock1].
    cbn in Heap. subst r1. cbn.
    unfold Daemon.setup_mab_socket.
    assert (PromiscuousSocket.socket
              (PromiscuousSocket._setup (Daemon.mab_setup env)
                 (PromiscuousSocket.mk None None)).2 = Some fd) as Hfd.
    { unfold PromiscuousSocket._setup, PromiscuousSocket.open,
        PromiscuousSocket.get_interface_index,
        PromiscuousSocket.set_interface_promiscuous.
      rewrite Hmab.
      destruct (PromiscuousSocket.bind_errno (Daemon.mab_setup env)); [done|].
      destruct (PromiscuousSocket.ioctl_answer (Daemon.mab_setup env));
        [|done].
      by destruct (PromiscuousSocket.setsockopt_errno (Daemon.mab_setup env)). }
    destruct (PromiscuousSocket._setup (Daemon.mab_setup env)
                (PromiscuousSocket.mk None None)) as [r2 sock2].
    cbn in Hfd. destruct r2 as [[]|e2]; cbn; [|by rewrite Hfd].
    unfold Daemon.setup_radius_socket.
    destruct (RadiusSocket.setup (Daemon.radius_setup env)
                (RadiusSocket.mk None)) as [r3 sock3].
    destruct r3 as [[]|e3]; cbn; [|by rewrite Hfd].
    match goal with |- context [Daemon.threads env ?d0] =>
      specialize (Hthreads d0); destruct (Daemon.threads env d0) as [r4 d4]
    end.
    cbn [fst snd Daemon.mab_socket] in Hthreads |- *.
    rewrite Hthreads. cbn. exact Hfd. }
  destruct (Daemon.run_body env (Daemon.set_running true d)) as [r d1].
  cbn [snd] in Hbody.
  pose proof (cleanup_spec env d1) as Hc. cbn zeta in Hc.
  destruct (Daemon.cleanup env d1) as [[rc d2] calls].
  assert (Daemon.mab_socket d2 = Daemon.mab_socket d1) as Hsame.
  { destruct (Daemon.radius_socket d1); by injection Hc as _ -> _. }
  destruct rc; cbn [fst snd]; by rewrite Hsame.
Qed.

End DaemonFacts.

(** ** [unpack_byte_string] *)

Section HexFacts.

Lemma parse_format_02x (x : byte) :
  ∃ a b, format_02x x = String a (String b EmptyString)
         ∧ parse_02x a b = Some x
         ∧ is_Some (hex_value a) ∧ is_Some (hex_value b).
Proof. destruct x; eexists _, _; (split; [reflexivity|]); vm_compute; eauto. Qed.

Lemma unpack_byte_string_cons (x : byte) (l : list byte) :
  unpack_byte_string (x :: l) = (format_02x x ++ unpack_byte_string l)%string.
Proof.
  unfold unpack_byte_string. cbn [fmap list_fmap String.concat].
  destruct l as [|y l]; cbn [fmap list_fmap]; [|done].
  cbn [String.concat]. destruct (parse_format_02x x) as (a & b & -> & _).
  reflexivity.
Qed.

(** X17.  [unpack_byte_string] prints every byte as two lowercase
    hexadecimal digits: the result is twice as long as the byte
    string, holds only the characters 0-9 and a-f, and two byte
    strings that print alike are equal. *)
Theorem unpack_byte_string_faithful (b1 b2 : list byte) :
  String.length (unpack_byte_string b1) = (2 * length b1)%nat
  ∧ Forall (λ c, is_Some (hex_value c))
      (String.list_ascii_of_string (unpack_byte_string b1))
  ∧ (unpack_byte_string b1 = unpack_byte_string b2 → b1 = b2).
Proof.
  split; [|split].
  - induction b1 as [|x l IH]; [done|].
    rewrite unpack_byte_string_cons.
    destruct (parse_format_02x x) as (a & b & -> & _).
    change (S (S (String.length (unpack_byte_string l)))
            = (2 * S (length l))%nat).
    rewrite IH. lia.
  - induction b1 as [|x l IH]; [by constructor|].
    rewrite unpack_byte_string_cons.
    destruct (parse_format_02x x) as (a & b & -> & _ & Ha & Hb).
    change (Forall (λ c, is_Some (hex_value c))
              (a :: b :: String.list_ascii_of_string (unpack_byte_string l))).
    by repeat constructor.
  - revert b2. induction b1 as [|x l IH]; intros [|y l'].
    + done.
    + rewrite unpack_byte_string_cons.
      destruct (parse_format_02x y) as (a & b & -> & _). done.
    + rewrite unpack_byte_string_cons.
      destruct (parse_format_02x x) as (a & b & -> & _). done.
    + rewrite !unpack_byte_string_cons.
      destruct (parse_format_02x x) as (a & b & -> & Hx & _).
      destruct (parse_format_02x y) as (a' & b' & -> & Hy & _).
      change (String a (String b (unpack_byte_string l))
              = String a' (String b' (unpack_byte_string l')) → x :: l = y :: l').
      intros [= -> -> Hrest]. f_equal; [congruence|by apply IH].
Qed.

End HexFacts.

(** ** The sender of EAP frames and the RADIUS receiver *)

Section TaskFacts.
Context {SM : Type} `{!StateMachine SM} `{!Codecs}.
Implicit Type s : Chewie.t SM.
Import Chewie NfvSockets Tasks.

Lemma sent_frames frame (r : list (list byte) * TaskEnd * t SM) :
  (sent frame r).1.1 = frame :: r.1.1
  ∧ (sent frame r).1.2 = r.1.2 ∧ (sent frame r).2 = r.2.
Proof. by destruct r as [[??]?]. Qed.

(** One undisturbed iteration of the sender on a queue that is not
    empty. *)
Lemma send_eap_messages_step tk ticks m queue frame sock s :
  send_running tk = true → send_sleep0 tk = None → send_arrivals tk = []
  → eap_output_messages s = m :: queue
  → ethernet_pack (qm_message m) (qm_port_mac m) (qm_src_mac m) = Ok frame
  → eap_socket s = Some sock
  → is_Some (EapSocket.socket sock)
  → send_eap_messages (tk :: ticks) s
    = match send_errno tk with
      | Some errno =>
          ([], TaskEscapes (Builtin (OSError errno)),
           set_eap_output_messages queue (set_running true s))
      | None =>
          sent frame
            (send_eap_messages ticks
               (set_eap_output_messages queue (set_running true s)))
      end.
Proof.
  intros Hrun Hsleep Harr Hq Hpack Hsock [fd Hfd].
  cbn [send_eap_messages]. rewrite Hrun, Hsleep, Harr. cbn.
  rewrite app_nil_r, Hq, Hsock, Hpack. unfold EapSocket_send. rewrite Hfd.
  by destruct (send_errno tk).
Qed.

(** X18.  [send_eap_messages] empties the queue first in, first out:
    over undisturbed iterations, no more than there are messages
    queued, the frames handed to the socket are the queued messages in
    their order, each packed by
    [ethernet_pack(message, port_mac, src_mac)], and what is left on
    the queue is the rest. *)
Theorem send_eap_messages_fifo (ticks : list SendTick)
    (frames : list (list byte)) (sock : EapSocket.t) s :
  eap_socket s = Some sock
  → is_Some (EapSocket.socket sock)
  → Forall calm_send ticks
  → (length ticks ≤ length (eap_output_messages s))%nat
  → Forall2
      (λ m frame,
         ethernet_pack (qm_message m) (qm_port_mac m) (qm_src_mac m)
         = Ok frame)
      (take (length ticks) (eap_output_messages s)) frames
  → (send_eap_messages ticks s).1.1 = frames
    ∧ (send_eap_messages ticks s).1.2 = TaskPending
    ∧ eap_output_messages (send_eap_messages ticks s).2
      = drop (length ticks) (eap_output_messages s).
Proof.
  intros Hsock Hopen Hcalm. revert frames s Hsock.
  induction Hcalm as [|tk ticks (Hrun & Hsleep & Harr & Herrno) _ IH];
    intros frames s Hsock Hlen Hpack.
  - cbn in Hpack |- *. by apply Forall2_nil_inv_l in Hpack as ->.
  - destruct (eap_output_messages s) as [|m queue] eqn:Hq;
      [cbn in Hlen; lia|].
    cbn [length take] in Hpack.
    apply Forall2_cons_inv_l in Hpack as (frame & frames' & Hf & Hrest & ->).
    rewrite (send_eap_messages_step tk ticks m queue frame sock s) by done.
    rewrite Herrno.
    destruct (sent_frames frame
                (send_eap_messages ticks
                   (set_eap_output_messages queue (set_running true s))))
      as (-> & -> & ->).
    destruct (IH frames' (set_eap_output_messages queue (set_running true s)))
      as (-> & -> & ->); [done|cbn in Hlen |- *; lia|done|].
    done.
Qed.

(** X19.  A frame the kernel refuses is lost: after any number of
    frames sent, when [sock_sendall] raises, the [OSError] ends the
    task, the message being sent has already left the queue and is
    not put back, and the messages behind it stay queued. *)
Theorem send_eap_messages_drops_failed_frame (calm : list SendTick)
    (tk : SendTick) (more : list SendTick) (frames : list (list byte))
    (lost : list byte) (m : EapQueueMessage) (errno : Z)
    (sock : EapSocket.t) s :
  eap_socket s = Some sock
  → is_Some (EapSocket.socket sock)
  → Forall calm_send calm
  → send_running tk = true ∧ send_sleep0 tk = None ∧ send_arrivals tk = []
  → send_errno tk = Some errno
  → eap_output_messages s !! length calm = Some m
  → Forall2
      (λ m frame,
         ethernet_pack (qm_message m) (qm_port_mac m) (qm_src_mac m)
         = Ok frame)
      (take (length calm) (eap_output_messages s)) frames
  → ethernet_pack (qm_message m) (qm_port_mac m) (qm_src_mac m) = Ok lost
  → (send_eap_messages (calm ++ tk :: more) s).1.1 = frames
    ∧ (send_eap_messages (calm ++ tk :: more) s).1.2
      = TaskEscapes (Builtin (OSError errno))
    ∧ eap_output_messages (send_eap_messages (calm ++ tk :: more) s).2
      = drop (S (length calm)) (eap_output_messages s).
Proof.
  intros Hsock Hopen Hcalm (Hrun & Hsleep & Harr) Herrno.
  revert frames s Hsock.
  induction Hcalm as [|tk0 calm (Hrun0 & Hsleep0 & Harr0 & Herrno0) _ IH];
    intros frames s Hsock Hm Hpack Hlost.
  - cbn [length take] in Hpack. cbn [length] in Hm |- *.
    change ([] ++ tk :: more) with (tk :: more).
    apply Forall2_nil_inv_l in Hpack as ->.
    destruct (eap_output_messages s) as [|m0 queue] eqn:Hq; [done|].
    cbn in Hm. injection Hm as ->.
    rewrite (send_eap_messages_step tk more m queue lost sock s) by done.
    by rewrite Herrno.
  - destruct (eap_output_messages s) as [|m0 queue] eqn:Hq; [done|].
    cbn [length take] in Hpack. cbn [length lookup list_lookup] in Hm.
    apply Forall2_cons_inv_l in Hpack as (frame & frames' & Hf & Hrest & ->).
    change ((tk0 :: calm) ++ tk :: more) with (tk0 :: (calm ++ tk :: more)).
    rewrite (send_eap_messages_step tk0 (calm ++ tk :: more) m0 queue frame
               sock s) by done.
    rewrite Herrno0.
    destruct (sent_frames frame
                (send_eap_messages (calm ++ tk :: more)
                   (set_eap_output_messages queue (set_running true s))))
      as (-> & -> & ->).
    destruct (IH frames' (set_eap_output_messages queue (set_running true s)))
      as (-> & -> & ->); done.
Qed.

(** X20.  A RADIUS reply is routed by its packet id alone: an id that
    is not in [packet_id_to_mac] raises [KeyError] before anything is
    touched; an id that is there hands the reply, as one
    [EventRadiusMessageReceived], to the machine stored for the
    (port, client) of the entry, which is the machine already there or
    else a new EAP machine (never a MAB machine), and changes no other
    session and no port table. *)
Theorem send_radius_to_state_machine_routes
    (packet_id_to_mac : gmap Z (string * string)) (radius : Z * string) s :
  match packet_id_to_mac !! radius.1 with
  | None =>
      Tasks.send_radius_to_state_machine packet_id_to_mac radius s
      = Fails (KeyError radius.1)
  | Some (src_mac, port_id) =>
      let ev := EventRadiusMessageReceived radius.2 in
      ∃ s',
        Tasks.send_radius_to_state_machine packet_id_to_mac radius s = Done s'
        ∧ event_log s' = event_log s ++ [(port_id, src_mac, ev)]
        ∧ lookup_machine port_id src_mac s'
          = Some (event ev
                    (default (FullEAPStateMachine src_mac port_id)
                       (lookup_machine port_id src_mac s))).1
        ∧ (∀ q m, ¬ (q = port_id ∧ m = src_mac)
                  → lookup_machine q m s' = lookup_machine q m s)
        ∧ same_ports s s'
  end.
Proof.
  unfold Tasks.send_radius_to_state_machine,
    get_state_machine_from_radius_packet_id.
  destruct (packet_id_to_mac !! radius.1) as [[src_mac port_id]|]; [|done].
  cbn zeta.
  pose proof (route_to_machine src_mac port_id (-1)
                (EventRadiusMessageReceived radius.2) s) as Hroute.
  destruct (get_state_machine src_mac port_id (-1) s) as [sm s1].
  eexists. split; [done|]. exact Hroute.
Qed.

Lemma send_radius_to_state_machine_unknown
    (packet_id_to_mac : gmap Z (string * string)) (radius : Z * string) s :
  packet_id_to_mac !! radius.1 = None
  → Tasks.send_radius_to_state_machine packet_id_to_mac radius s
    = Fails (KeyError radius.1).
Proof. intros Hid. unfold Tasks.send_radius_to_state_machine. by rewrite Hid. Qed.

(** One iteration of the RADIUS receiver that reads a datagram. *)
Lemma receive_radius_messages_step tk ticks sock fd data rest s :
  calm_radius tk
  → RadiusSocket.socket sock = Some fd
  → receive_radius_messages (tk :: ticks) (Some sock)
      (SockData data :: rest) s
    = match radius_parse data with
      | Raise e =>
          if is_MessageParseError e
          then receive_radius_messages ticks (Some sock) rest
                 (set_running true s)
          else (TaskEscapes (Builtin e), set_running true s)
      | Ok radius =>
          match Tasks.send_radius_to_state_machine
                  (radius_packet_id_to_mac tk) radius (set_running true s) with
          | Fails e => (TaskEscapes e, set_running true s)
          | Done s' => receive_radius_messages ticks (Some sock) rest s'
          end
      end.
Proof.
  intros [Hrun Hsleep] Hfd. cbn [receive_radius_messages].
  rewrite Hrun, Hsleep. cbn. unfold RadiusSocket.receive. by rewrite Hfd.
Qed.

(** X21.  In [receive_radius_messages] a datagram that does not parse
    is logged and skipped, with nothing changed; a reply that parses
    but whose packet id is not in [packet_id_to_mac] ends the task:
    the [KeyError] is not caught, the datagrams behind it are not
    read, and the dispatcher is as it was. *)
Theorem receive_radius_messages_unknown_id_ends_task
    (calm : list RadiusTick) (tk : RadiusTick) (more : list RadiusTick)
    (junk : list (list byte)) (data : list byte) (radius : Z * string)
    (rest : list SockEvent) (sock : RadiusSocket.t) s :
  is_Some (RadiusSocket.socket sock)
  → Forall calm_radius calm
  → calm_radius tk
  → length junk = length calm
  → Forall (λ d, radius_parse d = Raise MessageParseError) junk
  → radius_parse data = Ok radius
  → radius_packet_id_to_mac tk !! radius.1 = None
  → receive_radius_messages (calm ++ tk :: more) (Some sock)
      ((SockData <$> junk) ++ SockData data :: rest) s
    = (TaskEscapes (KeyError radius.1), set_running true s).
Proof.
  intros [fd Hfd] Hcalm Htk Hlen Hjunk Hparse Hid.
  revert junk Hlen Hjunk s.
  induction Hcalm as [|tk0 calm Htk0 _ IH]; intros junk Hlen Hjunk s.
  - destruct junk; [|done]. cbn [fmap list_fmap app].
    rewrite (receive_radius_messages_step tk more sock fd) by done.
    rewrite Hparse.
    pose proof (send_radius_to_state_machine_unknown
                  (radius_packet_id_to_mac tk) radius (set_running true s) Hid)
      as ->.
    done.
  - destruct junk as [|d junk]; [done|].
    apply Forall_cons in Hjunk as [Hd Hjunk].
    cbn [fmap list_fmap app].
    change ((tk0 :: calm) ++ tk :: more) with (tk0 :: (calm ++ tk :: more)).
    rewrite (receive_radius_messages_step tk0 _ sock fd) by done.
    rewrite Hd. cbn [is_MessageParseError].
    assert (length junk = length calm) as Hlen' by (cbn in Hlen; lia).
    exact (IH junk Hlen' Hjunk (set_running true s)).
Qed.

End TaskFacts.

(** ** The properties above on concrete settings *)

Section CaseFacts.
Import Chewie NfvSockets Scenario Cases Tasks.

Lemma session_scheduler_quiet (ev : Event) (sm : Session) :
  scheduler_quiet (event ev sm).2.
Proof. intros a Hin. by apply elem_of_nil in Hin. Qed.

Lemma port_down_cancels_only_stored_job_witness :
  length (timer_scheduler (port_down port1 (port_up port1 two_sessions)))
  = length (timer_scheduler (port_up port1 two_sessions)).
Proof.
  destruct (port_down_cancels_only_stored_job port1
              (port_up port1 two_sessions)
              (session_scheduler_quiet (EventPortStatusChange false)))
    as [Hlen _].
  exact Hlen.
Defined.

Lemma port_down_after_auth_success_keeps_earlier_job_witness :
  ∃ job0,
    timer_scheduler (port_up port1 two_sessions) !! 0%nat = Some job0
    ∧ timer_scheduler
        (port_down port1
           (auth_success client1 port1 30 (port_up port1 two_sessions)))
      !! 0%nat = Some job0.
Proof.
  destruct (timer_scheduler (port_up port1 two_sessions) !! 0%nat)
    as [job0|] eqn:Hjob; [|vm_compute in Hjob; discriminate Hjob].
  exists job0. split; [reflexivity|].
  assert (port_to_identity_job (port_up port1 two_sessions) !! port1
          = Some 0%nat) as Hj by (vm_compute; reflexivity).
  destruct (port_down_after_auth_success_keeps_earlier_job client1 port1 30
              (port_up port1 two_sessions) 0 job0
              (session_scheduler_quiet (EventPortStatusChange false))
              Hj Hjob) as [Hkept _].
  exact Hkept.
Defined.

Lemma mab_client_keeps_mab_machine_witness :
  ∃ ev2,
    lookup_machine port1 client2
      (send_eap_to_state_machine eapol_start port1
         (send_eth_to_state_machine_parsed dhcp_packet fresh))
    = Some (event ev2
              (event (EventMessageReceived (MsgEthernet dhcp_packet) port1)
                 (MacAuthenticationBypassStateMachine client2 port1)).1).1.
Proof.
  assert (lookup_machine port1 client2 fresh = None) as Hnone
    by (vm_compute; reflexivity).
  destruct (mab_client_keeps_mab_machine dhcp_packet eapol_start fresh
              Hnone eq_refl eq_refl) as (ev2 & _ & Hlk & _).
  exists ev2. exact Hlk.
Defined.

Lemma preemptive_request_then_response_witness :
  port_to_eapol_id (send_eap_to_state_machine response7 port1 awaiting_reply)
  !! port1 = Some 7.
Proof.
  assert (port_status (port_up port1 fresh) !! port1 = Some true) as Hup
    by (vm_compute; reflexivity).
  assert (∀ mac (sm : Session),
            lookup_machine port1 mac (port_up port1 fresh) = Some sm
            → is_in_progress sm = false ∧ is_success sm = false) as Hidle.
  { intros mac sm Hsm. unfold lookup_machine in Hsm.
    assert (state_machines (port_up port1 fresh) !! port1 = Some ∅) as Htbl
      by (vm_compute; reflexivity).
    rewrite Htbl in Hsm. cbn [default from_option id] in Hsm.
    rewrite lookup_empty in Hsm. discriminate Hsm. }
  assert (send_preemptive_identity_request_if_no_active_on_port 0 port1
            (port_up port1 fresh) = Some awaiting_reply) as Hfire.
  { unfold awaiting_reply.
    destruct (send_preemptive_identity_request_if_no_active_on_port 0 port1
                (port_up port1 fresh)) as [s1|] eqn:H;
      [reflexivity|vm_compute in H; discriminate H]. }
  assert (0 ≤ 7 ≤ 255) as Hbyte by lia.
  destruct (preemptive_request_then_response 0 port1 response7
              (port_up port1 fresh) awaiting_reply eq_refl Hup Hidle Hbyte
              eq_refl Hfire) as (_ & _ & Hid).
  exact Hid.
Defined.

Lemma preemptive_id_stays_recorded_witness :
  ∃ s',
    run 0 traffic awaiting_reply = Some s'
    ∧ port_to_eapol_id s' !! port1 = port_to_eapol_id awaiting_reply !! port1.
Proof.
  destruct (run 0 traffic awaiting_reply) as [s'|] eqn:Hrun;
    [|vm_compute in Hrun; discriminate Hrun].
  exists s'. split; [reflexivity|].
  apply (preemptive_id_stays_recorded 0 port1 traffic awaiting_reply s');
    [|exact Hrun].
  intros i Hin.
  repeat (apply elem_of_cons in Hin as [->|Hin];
          [cbn [rewrites_preemptive_id]; intros H; exact H|]).
  apply elem_of_nil in Hin. destruct Hin.
Defined.

Lemma reauth_port_spins_on_constant_source_witness :
  reauth_port 50 client1 port1 stuck_source = None.
Proof.
  assert (lookup_machine port1 client1 stuck_source = Some authenticated)
    as Hsm by (vm_compute; reflexivity).
  exact (reauth_port_spins_on_constant_source 50 client1 port1 stuck_source
           authenticated 5 Hsm eq_refl eq_refl (fun _ => eq_refl)).
Defined.

Lemma dhcp_frame_is_dhcp : dhcp_client_frame dhcp_frame.
Proof. repeat split; vm_compute; reflexivity. Qed.

Lemma mab_receive_returns_first_dhcp_frame_witness :
  MabSocket.receive [SockData other_frame; SockData dhcp_frame]
  = MabSocket.Returned dhcp_frame [].
Proof.
  assert (Forall (λ p, (38 ≤ length p)%nat ∧ ¬ dhcp_client_frame p)
            [other_frame]) as Hpre.
  { apply Forall_cons. split; [|apply Forall_nil_2]. split.
    - vm_compute. lia.
    - intros [H _]. vm_compute in H. discriminate H. }
  assert (38 ≤ length dhcp_frame)%nat as Hlen by (vm_compute; lia).
  destruct (mab_receive_returns_first_dhcp_frame [other_frame] dhcp_frame []
              Hpre Hlen dhcp_frame_is_dhcp) as [Hrecv _].
  exact Hrecv.
Defined.

Lemma radius_receive_skips_blocking_reads_witness :
  RadiusSocket.receive radius_sock [SockFail (OSError 11); SockData [x01]]
  = RadiusSocket.Returned [x01] [].
Proof.
  assert (is_Some (RadiusSocket.socket radius_sock)) as Hopen
    by (exists 5; reflexivity).
  assert (Forall (λ e, RadiusSocket.is_BlockingIOError e = true)
            [OSError 11]) as Hblocked.
  { apply Forall_cons. split; [reflexivity|apply Forall_nil_2]. }
  destruct (radius_receive_skips_blocking_reads radius_sock [OSError 11] []
              Hopen Hblocked) as [Hdata _].
  exact (Hdata [x01]).
Defined.

Lemma run_leaves_mab_socket_open_witness :
  Daemon.mab_socket (Daemon.run healthy new_daemon).1.2
  ≫= PromiscuousSocket.socket = Some 4.
Proof.
  exact (run_leaves_mab_socket_open healthy new_daemon 4 eq_refl eq_refl
           (fun _ => eq_refl)).
Defined.

Lemma send_ok_calm : calm_send send_ok.
Proof. by repeat split. Qed.

Lemma two_queued_open :
  is_Some (EapSocket.socket (EapSocket.mk (Some 3))).
Proof. by exists 3. Qed.

Lemma send_eap_messages_fifo_witness :
  (send_eap_messages [send_ok; send_ok] two_queued).1.1
  = [[x02; x61]; [x02; x62]].
Proof.
  assert (Forall calm_send [send_ok; send_ok]) as Hcalm.
  { repeat (apply Forall_cons; split; [exact send_ok_calm|]).
    apply Forall_nil_2. }
  assert (length [send_ok; send_ok] ≤ length (eap_output_messages two_queued))%nat
    as Hlen by (cbn; lia).
  assert (Forall2
            (λ m frame,
               ethernet_pack (qm_message m) (qm_port_mac m) (qm_src_mac m)
               = Ok frame)
            (take (length [send_ok; send_ok]) (eap_output_messages two_queued))
            [[x02; x61]; [x02; x62]]) as Hpack.
  { repeat (apply Forall2_cons; split; [reflexivity|]). apply Forall2_nil_2. }
  destruct (send_eap_messages_fifo [send_ok; send_ok]
              [[x02; x61]; [x02; x62]] (EapSocket.mk (Some 3)) two_queued
              eq_refl two_queued_open Hcalm Hlen Hpack) as [Hframes _].
  exact Hframes.
Defined.

Lemma send_eap_messages_drops_failed_frame_witness :
  (send_eap_messages [send_ok; send_refused; send_ok] two_queued).1.1
  = [[x02; x61]]
  ∧ (send_eap_messages [send_ok; send_refused; send_ok] two_queued).1.2
    = TaskEscapes (Builtin (OSError 100))
  ∧ eap_output_messages
      (send_eap_messages [send_ok; send_refused; send_ok] two_queued).2
    = [].
Proof.
  assert (Forall calm_send [send_ok]) as Hcalm.
  { apply Forall_cons. split; [exact send_ok_calm|apply Forall_nil_2]. }
  assert (Forall2
            (λ m frame,
               ethernet_pack (qm_message m) (qm_port_mac m) (qm_src_mac m)
               = Ok frame)
            (take (length [send_ok]) (eap_output_messages two_queued))
            [[x02; x61]]) as Hpack.
  { apply Forall2_cons. split; [reflexivity|apply Forall2_nil_2]. }
  exact (send_eap_messages_drops_failed_frame [send_ok] send_refused [send_ok]
           [[x02; x61]] [x02; x62] challenge2 100 (EapSocket.mk (Some 3))
           two_queued eq_refl two_queued_open Hcalm
           (conj eq_refl (conj eq_refl eq_refl)) eq_refl eq_refl Hpack
           eq_refl).
Defined.

Lemma receive_radius_messages_unknown_id_ends_task_witness :
  receive_radius_messages [nothing_outstanding; nothing_outstanding]
    (Some radius_sock) [SockData []; SockData [x09]] fresh
  = (TaskEscapes (KeyError 9), set_running true fresh).
Proof.
  assert (is_Some (RadiusSocket.socket radius_sock)) as Hopen
    by (exists 5; reflexivity).
  assert (Forall calm_radius [nothing_outstanding]) as Hcalm.
  { apply Forall_cons. split; [by split|apply Forall_nil_2]. }
  assert (Forall (λ d, radius_parse d = Raise MessageParseError) [[]])
    as Hjunk.
  { apply Forall_cons. split; [reflexivity|apply Forall_nil_2]. }
  exact (receive_radius_messages_unknown_id_ends_task [nothing_outstanding]
           nothing_outstanding [] [[]] [x09] (9, "") [] radius_sock fresh
           Hopen Hcalm (conj eq_refl eq_refl) eq_refl Hjunk eq_refl eq_refl).
Defined.

End CaseFacts.
